(** * ConcurrentMap: a lock-striped map over integer keys

    Shallow embedding of [src/ConcurrentMap.cpp].

    - A [std::map<Key, Value>] is a [gmap Z Value]: keys are unique and
      equality of maps is extensional, as for [std::map::operator==]; its
      traversal from [begin()] to [end()] is the list [entries] of its
      entries by ascending key.
    - [std::vector<Bucket> buckets_] is a [list Bucket]; a [Bucket&] is the
      index of the bucket in that list.
    - A [std::mutex] is a boolean, [true] while some [lock_guard] holds it.
    - The [Value&] kept in an [Access] is the slot it points to: the bucket
      index together with the key of the map node.
    - Calls end in an [outcome]: they return, leave by an exception, wait
      for a mutex that is held, or have undefined behaviour.
    - Threads interleave the steps they make on the shared map; every such
      step is made by the holder of the mutex of the bucket it works on.
    Allocation failure ([std::bad_alloc], [std::length_error]) is outside
    the model. *)

From stdpp Require Import gmap list sorting strings.
From Stdlib Require Import ZArith Lia.

Local Open Scope Z_scope.

(** ** Outcomes of a call *)

Inductive outcome (A : Type) : Type :=
  | Returns (a : A)   (* normal return *)
  | Throws            (* left by an exception ([AssertEqual]) *)
  | Blocks            (* waits for a mutex that is held *)
  | Undefined.        (* undefined behaviour *)

Arguments Returns {A} a.
Arguments Throws {A}.
Arguments Blocks {A}.
Arguments Undefined {A}.

#[global] Instance outcome_ret : MRet outcome := @Returns.

#[global] Instance outcome_bind : MBind outcome := λ A B f x,
  match x with
  | Returns a => f a
  | Throws => Throws
  | Blocks => Blocks
  | Undefined => Undefined
  end.

(** ** Keys and values *)

(** [static_cast<uint64_t>(key)]: conversion of an integer to the unsigned
    64-bit type is reduction modulo 2^64. *)
Definition static_cast_uint64 (key : Z) : Z := key mod 2 ^ 64.

(** The spec's words for the same conversion, on the values of the integral
    types of at most 64 bits: a non-negative key is kept, a negative key
    wraps around. *)
Definition unsignedWiden (key : Z) : Z :=
  if decide (key < 0) then key + 2 ^ 64 else key.

(** The values of the signed and unsigned integral types up to 64 bits. *)
Definition integral_key (key : Z) : Prop := - 2 ^ 63 ≤ key < 2 ^ 64.

(** [Value] is value-initialised by [std::map::operator[]]. *)
Class DefaultConstructible (Value : Type) := value_init : Value.

#[global] Instance int_default : DefaultConstructible Z := 0.

(** ** The container *)

Section ConcurrentMap.
Context {Value : Type} `{!DefaultConstructible Value}.

Record Bucket : Type := mkBucket {
  mutex : bool;
  map : gmap Z Value
}.

Record ConcurrentMap : Type := mkConcurrentMap {
  buckets_ : list Bucket
}.

Record Access : Type := mkAccess {
  guard : nat;               (* the bucket whose mutex the guard holds *)
  ref_to_value : nat * Z     (* the slot: bucket index and key of the node *)
}.

(** [explicit ConcurrentMap(size_t bucket_count) : buckets_(bucket_count)]:
    [bucket_count] buckets, each with a free mutex and an empty map. No
    statement of the constructor throws. *)
Definition ConcurrentMap_ctor (bucket_count : nat) : outcome ConcurrentMap :=
  Returns (mkConcurrentMap (replicate bucket_count (mkBucket false ∅))).

(** [buckets_[static_cast<uint64_t>(key) % buckets_.size()]]. The remainder
    of a division by zero is undefined. *)
Definition GetBucket (cm : ConcurrentMap) (key : Z) : outcome nat :=
  match length (buckets_ cm) with
  | O => Undefined
  | S _ as size =>
      Returns (Z.to_nat (static_cast_uint64 key mod Z.of_nat size))
  end.

(** *** Steps on one bucket *)

Definition with_bucket (i : nat) (f : Bucket → outcome Bucket)
    (cm : ConcurrentMap) : outcome ConcurrentMap :=
  match buckets_ cm !! i with
  | None => Undefined
  | Some b => b' ← f b; mret (mkConcurrentMap (<[i := b']> (buckets_ cm)))
  end.

(** [std::lock_guard guard(bucket.mutex)] *)
Definition lock (b : Bucket) : outcome Bucket :=
  if mutex b then Blocks else Returns (mkBucket true (map b)).

(** [~lock_guard()]; unlocking a mutex that is not held is undefined. *)
Definition unlock (b : Bucket) : outcome Bucket :=
  if mutex b then Returns (mkBucket false (map b)) else Undefined.

(** [m[key]] of [std::map]: a node with a value-initialised value is
    inserted when there is none for [key]. *)
Definition subscript (key : Z) (m : gmap Z Value) : gmap Z Value :=
  match m !! key with
  | Some _ => m
  | None => <[key := value_init]> m
  end.

(** [m.insert({key, v})] of [std::map]: nothing changes when a node for
    [key] exists. *)
Definition insert_new (key : Z) (v : Value) (m : gmap Z Value) : gmap Z Value :=
  match m !! key with
  | Some _ => m
  | None => <[key := v]> m
  end.

(** The order of the keys, and the entries of a [std::map] from [begin()]
    to [end()]. *)
Definition key_le (x y : Z * Value) : Prop := x.1 ≤ y.1.

#[global] Instance key_le_dec x y : Decision (key_le x y) := decide (x.1 ≤ y.1).

Definition entries (m : gmap Z Value) : list (Z * Value) :=
  merge_sort key_le (map_to_list m).

(** [result.insert(map.begin(), map.end())] *)
Definition insert_range (result m : gmap Z Value) : gmap Z Value :=
  foldl (λ r kv, insert_new kv.1 kv.2 r) result (entries m).

(** Reading and writing through a [Value&]; a slot without node is a
    dangling reference. *)
Definition deref (cm : ConcurrentMap) (slot : nat * Z) : outcome Value :=
  match buckets_ cm !! slot.1 ≫= λ b, map b !! slot.2 with
  | Some v => Returns v
  | None => Undefined
  end.

Definition assign (slot : nat * Z) (v : Value) (cm : ConcurrentMap)
    : outcome ConcurrentMap :=
  with_bucket slot.1 (λ b,
    match map b !! slot.2 with
    | Some _ => Returns (mkBucket (mutex b) (<[slot.2 := v]> (map b)))
    | None => Undefined
    end) cm.

(** The two initialisers of [Access], in the order of the members. *)
Definition guard_ctor (i : nat) (cm : ConcurrentMap) : outcome ConcurrentMap :=
  with_bucket i lock cm.

Definition map_subscript (i : nat) (key : Z) (cm : ConcurrentMap)
    : outcome ConcurrentMap :=
  with_bucket i (λ b, Returns (mkBucket (mutex b) (subscript key (map b)))) cm.

(** [bucket.map.erase(key)] *)
Definition map_erase (i : nat) (key : Z) (cm : ConcurrentMap)
    : outcome ConcurrentMap :=
  with_bucket i (λ b, Returns (mkBucket (mutex b) (delete key (map b)))) cm.

(** *** The public operations *)

(** [Access(key, bucket) : guard(bucket.mutex), ref_to_value(bucket.map[key])] *)
Definition Access_ctor (key : Z) (i : nat) (cm : ConcurrentMap)
    : outcome (Access * ConcurrentMap) :=
  cm1 ← guard_ctor i cm;
  cm2 ← map_subscript i key cm1;
  mret (mkAccess i (i, key), cm2).

(** The destructor of [Access] destroys [guard]. *)
Definition Access_dtor (a : Access) (cm : ConcurrentMap) : outcome ConcurrentMap :=
  with_bucket (guard a) unlock cm.

(** [Access operator[](const Key& key)] *)
Definition subscript_op (cm : ConcurrentMap) (key : Z)
    : outcome (Access * ConcurrentMap) :=
  i ← GetBucket cm key;
  Access_ctor key i cm.

(** [void erase(const Key& key)] *)
Definition erase (key : Z) (cm : ConcurrentMap) : outcome ConcurrentMap :=
  i ← GetBucket cm key;
  cm1 ← guard_ctor i cm;
  cm2 ← map_erase i key cm1;
  with_bucket i unlock cm2.

(** One turn of the loop of [BuildOrdinaryMap] on bucket [i]. *)
Definition BuildOrdinaryMap_body (i : nat) (st : gmap Z Value * ConcurrentMap)
    : outcome (gmap Z Value * ConcurrentMap) :=
  cm1 ← guard_ctor i st.2;
  m ← match buckets_ cm1 !! i with
      | Some b => Returns (map b)
      | None => Undefined
      end;
  cm2 ← with_bucket i unlock cm1;
  mret (insert_range st.1 m, cm2).

Fixpoint BuildOrdinaryMap_loop (idxs : list nat) (st : gmap Z Value * ConcurrentMap)
    : outcome (gmap Z Value * ConcurrentMap) :=
  match idxs with
  | [] => Returns st
  | i :: idxs' => st' ← BuildOrdinaryMap_body i st; BuildOrdinaryMap_loop idxs' st'
  end.

(** [std::map<Key, Value> BuildOrdinaryMap()] *)
Definition BuildOrdinaryMap (cm : ConcurrentMap)
    : outcome (gmap Z Value * ConcurrentMap) :=
  BuildOrdinaryMap_loop (seq 0 (length (buckets_ cm))) (∅, cm).

(** ** Clients on one thread *)

(** The statements the callers in the source are made of. [access key f] is
    a full expression that changes the value behind [cm[key].ref_to_value]
    by [f], as [++cm[key].ref_to_value] and
    [cm[i].ref_to_value.push_back('a')] do; a read is [access key Returns].
    The temporary [Access] is destroyed at the end of the expression. *)
Inductive call : Type :=
  | access (key : Z) (f : Value → outcome Value)
  | erase_key (key : Z)
  | snapshot.

Definition update_through (key : Z) (f : Value → outcome Value)
    (cm : ConcurrentMap) : outcome ConcurrentMap :=
  '(a, cm1) ← subscript_op cm key;
  v ← deref cm1 (ref_to_value a);
  w ← f v;
  cm2 ← assign (ref_to_value a) w cm1;
  Access_dtor a cm2.

Definition run_call (c : call) (cm : ConcurrentMap) : outcome ConcurrentMap :=
  match c with
  | access key f => update_through key f cm
  | erase_key key => erase key cm
  | snapshot => '(_, cm') ← BuildOrdinaryMap cm; mret cm'
  end.

Fixpoint run_calls (cs : list call) (cm : ConcurrentMap) : outcome ConcurrentMap :=
  match cs with
  | [] => Returns cm
  | c :: cs' => cm' ← run_call c cm; run_calls cs' cm'
  end.

(** The same client on a map built with [bucket_count] buckets, ending with
    a call of [BuildOrdinaryMap] whose result is returned. *)
Definition run_and_snapshot (bucket_count : nat) (cs : list call)
    : outcome (gmap Z Value) :=
  cm0 ← ConcurrentMap_ctor bucket_count;
  cm ← run_calls cs cm0;
  '(result, _) ← BuildOrdinaryMap cm;
  mret result.

(** ** The map the spec describes

    The spec's words, on one ordinary map: access creates the entry with
    the default value when the key is absent and exposes its value to a
    mutation; erase removes the key if present; the snapshot reads. *)
Definition spec_call (c : call) (m : gmap Z Value) : outcome (gmap Z Value) :=
  match c with
  | access key f =>
      w ← f (default value_init (m !! key)); mret (<[key := w]> m)
  | erase_key key => Returns (delete key m)
  | snapshot => Returns m
  end.

Fixpoint spec_calls (cs : list call) (m : gmap Z Value) : outcome (gmap Z Value) :=
  match cs with
  | [] => Returns m
  | c :: cs' => m' ← spec_call c m; spec_calls cs' m'
  end.

(** The key a call works on, and the calls whose mutation returns for
    every value. *)
Definition call_key (c : call) : option Z :=
  match c with
  | access key _ => Some key
  | erase_key key => Some key
  | snapshot => None
  end.

Definition mutation_returns (c : call) : Prop :=
  match c with
  | access _ f => ∀ v, ∃ w, f v = Returns w
  | _ => True
  end.

(** ** Clients on several threads

    A thread runs a list of statements [f(cm[key].ref_to_value)]. Between
    two statements it is [Idle]; inside one it has built the guard, bound
    the reference, read the value, or written the new value back. A step of
    the system is one of these steps of one thread; a thread without
    statements left stays as it is. *)
Inductive phase : Type :=
  | Idle
  | Guarded (i : nat)
  | Bound (a : Access)
  | Loaded (a : Access) (v : Value)
  | Stored (a : Access).

Record thread : Type := mkThread {
  pc : phase;
  todo : list (Z * (Value → outcome Value))
}.

Record system : Type := mkSystem {
  shared : ConcurrentMap;
  threads : list thread
}.

Definition thread_step (t : thread) (cm : ConcurrentMap)
    : outcome (thread * ConcurrentMap) :=
  match todo t with
  | [] => Returns (t, cm)
  | (key, f) :: rest =>
      match pc t with
      | Idle =>                     (* GetBucket(key); guard(bucket.mutex) *)
          i ← GetBucket cm key;
          cm' ← guard_ctor i cm;
          mret (mkThread (Guarded i) (todo t), cm')
      | Guarded i =>                (* ref_to_value(bucket.map[key]) *)
          cm' ← map_subscript i key cm;
          mret (mkThread (Bound (mkAccess i (i, key))) (todo t), cm')
      | Bound a =>                  (* the mutation reads the value *)
          v ← deref cm (ref_to_value a);
          mret (mkThread (Loaded a v) (todo t), cm)
      | Loaded a v =>               (* the mutation writes the new value *)
          w ← f v;
          cm' ← assign (ref_to_value a) w cm;
          mret (mkThread (Stored a) (todo t), cm')
      | Stored a =>                 (* end of the full expression: ~Access() *)
          cm' ← Access_dtor a cm;
          mret (mkThread Idle rest, cm')
      end
  end.

(** The scheduler picks thread [tid]. A thread that waits for a mutex makes
    no step, and neither does a thread that does not exist. *)
Definition system_step (tid : nat) (s : system) : outcome system :=
  match threads s !! tid with
  | None => Returns s
  | Some t =>
      match thread_step t (shared s) with
      | Returns (t', cm') => Returns (mkSystem cm' (<[tid := t']> (threads s)))
      | Blocks => Returns s
      | Throws => Throws
      | Undefined => Undefined
      end
  end.

Fixpoint run_schedule (schedule : list nat) (s : system) : outcome system :=
  match schedule with
  | [] => Returns s
  | tid :: schedule' => s' ← system_step tid s; run_schedule schedule' s'
  end.

Definition finished (s : system) : Prop :=
  Forall (λ t, todo t = []) (threads s).

(** [async(kernel, i)] for each program, on the map [cm]. *)
Definition spawn (cm : ConcurrentMap)
    (programs : list (list (Z * (Value → outcome Value)))) : system :=
  mkSystem cm (mkThread Idle <$> programs).

End ConcurrentMap.

Arguments Bucket : clear implicits.
Arguments ConcurrentMap : clear implicits.
Arguments call : clear implicits.
Arguments phase : clear implicits.
Arguments thread : clear implicits.
Arguments system : clear implicits.

(** A history lists the statements of several threads in an order that
    keeps the order of each thread: [merged done h] when [h] interleaves
    the statement lists [done], one per thread. *)
Inductive merged {A : Type} : list (list A) → list A → Prop :=
  | merged_nil n : merged (replicate n []) []
  | merged_snoc done h tid l x :
      merged done h →
      done !! tid = Some l →
      merged (<[tid := l ++ [x]]> done) (h ++ [x]).

(** ** The test of concurrent updates *)

Definition INT_MAX : Z := 2 ^ 31 - 1.

(** [++v] on an [int]; the overflow of a signed integer is undefined. *)
Definition preinc (v : Z) : outcome Z :=
  if decide (v < INT_MAX) then Returns (v + 1) else Undefined.

(** The statements [++cm[key].ref_to_value] for the keys of a list. *)
Definition increments (keys : list Z) : list (Z * (Z → outcome Z)) :=
  (λ key, (key, preinc)) <$> keys.

(** [iota(begin(updates), end(updates), first)] on a vector of [n] elements *)
Definition iota (n : nat) (first : Z) : list Z :=
  (λ i : nat, first + Z.of_nat i) <$> seq 0 n.

(** [AssertEqual(t, u, hint)] *)
Definition AssertEqual {T : Type} `{EqDecision T} (t u : T) : outcome unit :=
  if decide (t = u) then Returns () else Throws.

Definition THREAD_COUNT : nat := 3.
Definition KEY_COUNT : Z := 50000.

Section TestConcurrentUpdate.
(** [shuffle(begin(updates), end(updates), mt19937(seed))] reorders the
    vector; which order it produces for a seed is left open. *)
Variable shuffle : nat → list Z → list Z.

(** The lambda [kernel] of [RunConcurrentUpdates]: the statements
    [++cm[key].ref_to_value] of the two passes over [updates]. *)
Definition kernel (key_count : Z) (seed : nat) : list (Z * (Z → outcome Z)) :=
  let updates := shuffle seed (iota (Z.to_nat key_count) (Z.quot (- key_count) 2)) in
  increments (updates ++ updates).

(** [RunConcurrentUpdates(cm, thread_count, key_count)] starts one thread
    per call of [async] (the launch policy of the library is taken to be
    [launch::async]); it returns when the destructors of the futures have
    waited for all of them, that is from a [finished] system. *)
Definition RunConcurrentUpdates (cm : ConcurrentMap Z) (thread_count : nat)
    (key_count : Z) : system Z :=
  spawn cm (kernel key_count <$> seq 0 thread_count).

(** The assertions of [TestConcurrentUpdate] on [result]. *)
Definition TestConcurrentUpdate_asserts (result : gmap Z Z) : outcome unit :=
  _ ← AssertEqual (Z.of_nat (size result)) KEY_COUNT;
  foldr (λ kv rest, _ ← AssertEqual kv.2 6; rest) (Returns ()) (entries result).

(** [TestConcurrentUpdate] when the threads are scheduled by [schedule]. *)
Definition TestConcurrentUpdate (schedule : list nat) : outcome unit :=
  cm ← ConcurrentMap_ctor THREAD_COUNT;
  s ← run_schedule schedule (RunConcurrentUpdates cm THREAD_COUNT KEY_COUNT);
  '(result, _) ← BuildOrdinaryMap (shared s);
  TestConcurrentUpdate_asserts result.

End TestConcurrentUpdate.

(** ** Properties of a state *)

Section Properties.
Context {Value : Type} `{!DefaultConstructible Value}.
Implicit Types (cm : ConcurrentMap Value) (b : Bucket Value).

(** No [lock_guard] is alive. *)
Definition all_free cm : Prop :=
  Forall (λ b, mutex b = false) (buckets_ cm).

(** Every key of a bucket is a key that [GetBucket] sends to this bucket. *)
Definition partitioned cm : Prop :=
  ∀ i b key, buckets_ cm !! i = Some b → is_Some (map b !! key) →
    GetBucket cm key = Returns i.

(** No [lock_guard] on the bucket of [key] is alive. *)
Definition bucket_free cm (key : Z) : Prop :=
  ∀ i b, GetBucket cm key = Returns i → buckets_ cm !! i = Some b →
    mutex b = false.

(** No key is in two buckets. *)
Definition keys_disjoint cm : Prop :=
  ∀ i j bi bj key,
    buckets_ cm !! i = Some bi → buckets_ cm !! j = Some bj →
    is_Some (map bi !! key) → is_Some (map bj !! key) → i = j.

(** The entries of all buckets together, earlier buckets first. *)
Definition contents cm : gmap Z Value :=
  foldl (λ result b, result ∪ map b) ∅ (buckets_ cm).

(** A state between two calls of a client: there are buckets, no guard is
    alive, and the buckets partition the keys. *)
Definition quiescent cm : Prop :=
  (0 < length (buckets_ cm))%nat ∧ all_free cm ∧ partitioned cm.

(** *** States of several threads *)

Implicit Types (t : thread Value) (ts : list (thread Value)).

(** A statement of a thread as a call of a client. *)
Definition stmt_call (st : Z * (Value → outcome Value)) : call Value :=
  access st.1 st.2.

(** The bucket whose mutex the thread holds. *)
Definition held_by t : option nat :=
  match pc t with
  | Idle => None
  | Guarded i => Some i
  | Bound a | Loaded a _ | Stored a => Some (guard a)
  end.

(** The statements whose effect is still to come: the current statement
    has taken effect once the new value is stored. *)
Definition remaining t : list (Z * (Value → outcome Value)) :=
  match pc t with
  | Stored _ => tail (todo t)
  | _ => todo t
  end.

(** Inside a statement the guard is the one of the bucket of its key and
    the reference is the slot of its key. *)
Definition phase_ok cm t : Prop :=
  match pc t, todo t with
  | Idle, _ => True
  | Guarded i, (key, _) :: _ => GetBucket cm key = Returns i
  | Bound a, (key, _) :: _ | Loaded a _, (key, _) :: _ | Stored a, (key, _) :: _ =>
      GetBucket cm key = Returns (guard a) ∧ ref_to_value a = (guard a, key)
  | _, [] => False
  end.

(** The map [m] of a bucket held by [t], against the map [m_abs] the bucket
    has when the statements are run one after the other. *)
Definition owner_rel t (m m_abs : gmap Z Value) : Prop :=
  match pc t, todo t with
  | Guarded _, _ :: _ | Stored _, _ :: _ => m = m_abs
  | Bound _, (key, _) :: _ => m = subscript key m_abs
  | Loaded _ v, (key, _) :: _ => m = subscript key m_abs ∧ m !! key = Some v
  | _, _ => False
  end.

(** The shared map [cm] of the threads [ts] against the quiescent map
    [abs]: a bucket is held by at most one thread; a held bucket is locked
    and differs from the one of [abs] as its holder has left it; a bucket
    that nobody holds is the one of [abs]. *)
Definition coupled ts cm (abs : ConcurrentMap Value) : Prop :=
  length (buckets_ cm) = length (buckets_ abs)
  ∧ (∀ tid1 tid2 t1 t2 i,
       ts !! tid1 = Some t1 → ts !! tid2 = Some t2 →
       held_by t1 = Some i → held_by t2 = Some i → tid1 = tid2)
  ∧ (∀ tid t i,
       ts !! tid = Some t → held_by t = Some i →
       ∃ b b_abs, buckets_ cm !! i = Some b ∧ buckets_ abs !! i = Some b_abs
         ∧ mutex b = true ∧ owner_rel t (map b) (map b_abs))
  ∧ (∀ i b,
       buckets_ cm !! i = Some b →
       (∀ tid t, ts !! tid = Some t → held_by t ≠ Some i) →
       buckets_ abs !! i = Some b).

(** The invariant of a system that runs [programs] on the map [cm0]: the
    statements that have taken effect, in the order [h] of their effect,
    lead from [cm0] to a quiescent map that the shared map is coupled to. *)
Definition linearized (programs : list (list (Z * (Value → outcome Value))))
    (cm0 : ConcurrentMap Value) (s : system Value) : Prop :=
  ∃ h done abs,
    merged done h
    ∧ run_calls (stmt_call <$> h) cm0 = Returns abs
    ∧ quiescent abs
    ∧ coupled (threads s) (shared s) abs
    ∧ length done = length programs
    ∧ length (threads s) = length programs
    ∧ (∀ tid p d t,
         programs !! tid = Some p → done !! tid = Some d →
         threads s !! tid = Some t →
         p = d ++ remaining t ∧ phase_ok abs t).

(** Every order of effect of the statements, cut anywhere, runs without
    undefined behaviour and without exception on one thread. *)
Definition sequentially_safe
    (programs : list (list (Z * (Value → outcome Value))))
    (cm0 : ConcurrentMap Value) : Prop :=
  ∀ done h,
    merged done h →
    length done = length programs →
    (∀ tid p d, programs !! tid = Some p → done !! tid = Some d → d `prefix_of` p) →
    ∃ abs, run_calls (stmt_call <$> h) cm0 = Returns abs.

(** The buckets partition the keys and every thread inside a statement
    works on the bucket of its key. *)
Definition system_partitioned (s : system Value) : Prop :=
  partitioned (shared s) ∧ Forall (phase_ok (shared s)) (threads s).

(** The steps a thread has left. *)
Definition phase_num (ph : phase Value) : nat :=
  match ph with
  | Idle => 0 | Guarded _ => 1 | Bound _ => 2 | Loaded _ _ => 3 | Stored _ => 4
  end.

Definition steps_left t : nat := 5 * length (todo t) - phase_num (pc t).

Definition work_left (s : system Value) : nat :=
  sum_list (steps_left <$> threads s).

End Properties.

(** How often the statements of a program, and of several programs, work
    on [key]. *)
Definition count_key {A : Type} (key : Z) (p : list (Z * A)) : nat :=
  length (filter (λ st, st.1 = key) p).

Definition occurrences {A : Type} (key : Z) (programs : list (list (Z * A))) : nat :=
  sum_list (count_key key <$> programs).

(** ** The test of the speedup *)

Section TestSpeedup.
Variable shuffle : nat → list Z → list Z.

(** [TestSpeedup]: the same updates on a map with one bucket and on a map
    with 100 buckets, each run scheduled in its own way. The durations that
    [LOG_DURATION] writes to [cerr] are left out. *)
Definition TestSpeedup (schedule1 schedule2 : list nat)
    : outcome (system Z * system Z) :=
  single_lock ← ConcurrentMap_ctor 1;
  s1 ← run_schedule schedule1 (RunConcurrentUpdates shuffle single_lock 4 50000);
  many_locks ← ConcurrentMap_ctor 100;
  s2 ← run_schedule schedule2 (RunConcurrentUpdates shuffle many_locks 4 50000);
  mret (s1, s2).

End TestSpeedup.

(** ** The test of reading and writing *)

Section ValuesRead.
Context {Value : Type} `{!DefaultConstructible Value}.

(** The value a step from [t] to [t'] has read through the reference. *)
Definition value_read (t t' : thread Value) : option Value :=
  match pc t, pc t' with
  | Bound _, Loaded _ v => Some v
  | _, _ => None
  end.

(** The values the threads read while [schedule] runs, each with the thread
    that read it, in the order of the reads. *)
Fixpoint values_read (schedule : list nat) (s : system Value)
    : list (nat * Value) :=
  match schedule with
  | [] => []
  | tid :: schedule' =>
      match system_step tid s with
      | Returns s' =>
          match threads s !! tid ≫= λ t, threads s' !! tid ≫= value_read t with
          | Some v => [(tid, v)]
          | None => []
          end ++ values_read schedule' s'
      | _ => []
      end
  end.

(** [v] is the value of a key of a statement of thread [tid] (or the
    default value, when the key has no entry) in the map that the
    statements of [h], run one after the other on [cm0], leave; [h] keeps
    the order of each thread and has a part of the statements of each. *)
Definition serial_read (programs : list (list (Z * (Value → outcome Value))))
    (cm0 : ConcurrentMap Value) (tid : nat) (v : Value) : Prop :=
  ∃ dones h m p key f,
    merged dones h
    ∧ length dones = length programs
    ∧ (∀ tid p d, programs !! tid = Some p → dones !! tid = Some d →
         d `prefix_of` p)
    ∧ programs !! tid = Some p ∧ (key, f) ∈ p
    ∧ spec_calls (stmt_call <$> h) (contents cm0) = Returns m
    ∧ v = default value_init (m !! key).

End ValuesRead.

#[global] Instance string_default : DefaultConstructible string | 10 := "".

#[global] Instance outcome_eq_dec {A : Type} `{EqDecision A}
  : EqDecision (outcome A).
Proof. solve_decision. Defined.

(** [cm[i].ref_to_value.push_back('a')] and [result[i] = cm[i].ref_to_value] *)
Definition push_back_a (s : string) : outcome string := Returns (s +:+ "a").

(** The lambdas [updater] and [reader]: one statement for each [i] below
    50000. *)
Definition updater : list (Z * (string → outcome string)) :=
  (λ i, (i, push_back_a)) <$> seqZ 0 50000.

Definition reader : list (Z * (string → outcome string)) :=
  (λ i, (i, Returns)) <$> seqZ 0 50000.

(** The vector [result] of the reader [tid]: 50000 empty strings, the first
    of them replaced by the values the reader has read. *)
Definition reader_result (tid : nat) (log : list (nat * string)) : list string :=
  let values := (filter (λ r, r.1 = tid) log).*2 in
  values ++ replicate (Z.to_nat 50000 - length values) "".

(** The predicate of [all_of] in [TestReadAndWrite]. *)
Definition empty_or_a_or_aa (s : string) : bool :=
  bool_decide (s = "") || bool_decide (s = "a") || bool_decide (s = "aa").

(** [TestReadAndWrite]: [u1], [r1], [u2] and [r2] are the threads 0, 1, 2
    and 3. *)
Definition TestReadAndWrite (schedule : list nat) : outcome unit :=
  cm ← ConcurrentMap_ctor 5;
  s ← run_schedule schedule (spawn cm [updater; reader; updater; reader]);
  let log := values_read schedule (spawn cm [updater; reader; updater; reader]) in
  _ ← AssertEqual (forallb empty_or_a_or_aa (reader_result 1 log)) true;
  AssertEqual (forallb empty_or_a_or_aa (reader_result 3 log)) true.

(** ** A state to try the calls on

    Three buckets over [int] values: the keys -1 and 1 are present. *)
Definition example_map : ConcurrentMap Z :=
  mkConcurrentMap
    [mkBucket false {[ -1 := 1 ]}; mkBucket false {[ 1 := 5 ]}; mkBucket false ∅].

(** * Theorems *)

(** ** Partition selection *)

Section Selection.
Context {Value : Type} `{!DefaultConstructible Value}.
Implicit Types (cm : ConcurrentMap Value) (b : Bucket Value).

Lemma static_cast_uint64_range key : 0 ≤ static_cast_uint64 key < 2 ^ 64.
Proof. unfold static_cast_uint64. apply Z.mod_pos_bound. lia. Qed.

Lemma static_cast_uint64_unsignedWiden key :
  integral_key key → static_cast_uint64 key = unsignedWiden key.
Proof.
  unfold integral_key, static_cast_uint64, unsignedWiden. intros Hk.
  case_decide.
  - rewrite <- (Z.mod_add key 1 (2 ^ 64)) by lia.
    rewrite Z.mod_small; lia.
  - rewrite Z.mod_small; lia.
Qed.

Lemma GetBucket_index cm key :
  (0 < length (buckets_ cm))%nat →
  GetBucket cm key =
    Returns (Z.to_nat (static_cast_uint64 key mod Z.of_nat (length (buckets_ cm)))).
Proof.
  unfold GetBucket. destruct (length (buckets_ cm)); [lia | done].
Qed.

Lemma GetBucket_in_bounds cm key :
  (0 < length (buckets_ cm))%nat →
  ∃ i b, GetBucket cm key = Returns i ∧ (i < length (buckets_ cm))%nat
         ∧ buckets_ cm !! i = Some b.
Proof.
  intros Hn. rewrite GetBucket_index by done.
  set (i := Z.to_nat _).
  assert (Hi : (i < length (buckets_ cm))%nat).
  { subst i.
    pose proof (Z.mod_pos_bound (static_cast_uint64 key)
                  (Z.of_nat (length (buckets_ cm)))). lia. }
  destruct (lookup_lt_is_Some_2 _ _ Hi) as [b Hb]. eauto.
Qed.

Lemma GetBucket_empty cm key :
  length (buckets_ cm) = 0%nat → GetBucket cm key = Undefined.
Proof. unfold GetBucket. by intros ->. Qed.

(** [GetBucket] reads the size of the table only. *)
Lemma GetBucket_same_length cm cm' key :
  length (buckets_ cm') = length (buckets_ cm) →
  GetBucket cm' key = GetBucket cm key.
Proof. unfold GetBucket. by intros ->. Qed.

(** C1: on a map with N > 0 buckets the bucket chosen for a key of an
    integral type is unsignedWiden(key) mod N, an index in [0, N); a
    negative key wraps to key + 2^64 first. *)
Theorem GetBucket_unsignedWiden_mod cm key :
  (0 < length (buckets_ cm))%nat →
  integral_key key →
  let N := Z.of_nat (length (buckets_ cm)) in
  GetBucket cm key = Returns (Z.to_nat (unsignedWiden key mod N))
  ∧ 0 ≤ unsignedWiden key mod N < N
  ∧ 0 ≤ unsignedWiden key < 2 ^ 64
  ∧ (key < 0 → unsignedWiden key = key + 2 ^ 64).
Proof.
  intros Hn Hk N. rewrite <- static_cast_uint64_unsignedWiden by done.
  split; [by apply GetBucket_index |].
  split; [apply Z.mod_pos_bound; lia |].
  split; [apply static_cast_uint64_range |].
  intros Hneg. rewrite static_cast_uint64_unsignedWiden by done.
  unfold unsignedWiden. by case_decide.
Qed.

End Selection.

Lemma GetBucket_unsignedWiden_mod_witness :
  GetBucket (mkConcurrentMap (replicate 3 (mkBucket false (∅ : gmap Z Z)))) (-1)
    = Returns 0%nat
  ∧ unsignedWiden (-1) = 18446744073709551615.
Proof.
  pose proof (GetBucket_unsignedWiden_mod
    (mkConcurrentMap (replicate 3 (mkBucket false (∅ : gmap Z Z)))) (-1)) as H.
  destruct H as (H1 & _ & _ & H4).
  - simpl. lia.
  - unfold integral_key. lia.
  - split; [exact H1 | apply H4; lia].
Defined.

(** ** The calls on a state without live guard *)

Section Sequential.
Context {Value : Type} `{!DefaultConstructible Value}.
Implicit Types (cm : ConcurrentMap Value) (b : Bucket Value).
Implicit Types (m result : gmap Z Value) (f : Value → outcome Value).

Lemma with_bucket_at i g cm b :
  buckets_ cm !! i = Some b →
  with_bucket i g cm = b' ← g b; mret (mkConcurrentMap (<[i := b']> (buckets_ cm))).
Proof. unfold with_bucket. by intros ->. Qed.

Lemma insert_new_union key v result m :
  m !! key = None → insert_new key v (result ∪ m) = result ∪ <[key := v]> m.
Proof.
  intros Hm. unfold insert_new.
  destruct ((result ∪ m) !! key) as [w|] eqn:Hu.
  - apply lookup_union_Some_raw in Hu as [Hr | [_ ?]]; [| congruence].
    apply map_eq. intros k. destruct (decide (k = key)) as [-> |].
    + by rewrite !(lookup_union_l' _ _ key) by eauto.
    + rewrite !lookup_union, lookup_insert_ne; done.
  - apply lookup_union_None in Hu as [Hr _]. by rewrite insert_union_r.
Qed.

#[global] Instance key_le_total : Total (key_le (Value := Value)).
Proof. intros x y. unfold key_le. lia. Qed.

#[global] Instance key_le_trans : Transitive (key_le (Value := Value)).
Proof. intros x y z. unfold key_le. lia. Qed.

Lemma entries_Permutation m : entries m ≡ₚ map_to_list m.
Proof. apply merge_sort_Permutation. Qed.

(** The traversal visits every entry once, by ascending key. *)
Lemma entries_sorted m : StronglySorted key_le (entries m).
Proof. apply StronglySorted_merge_sort; apply _. Qed.

Lemma elem_of_entries m key v : (key, v) ∈ entries m ↔ m !! key = Some v.
Proof. by rewrite entries_Permutation, elem_of_map_to_list. Qed.

Lemma NoDup_fst_entries m : NoDup (entries m).*1.
Proof. rewrite entries_Permutation. apply NoDup_fst_map_to_list. Qed.

Lemma list_to_map_entries m : list_to_map (entries m) = m.
Proof.
  rewrite <- (list_to_map_to_list m) at 2.
  apply list_to_map_proper; [apply NoDup_fst_entries | apply entries_Permutation].
Qed.

Lemma foldl_insert_new (l : list (Z * Value)) : ∀ result,
  NoDup l.*1 →
  foldl (λ r kv, insert_new kv.1 kv.2 r) result l = result ∪ list_to_map l.
Proof.
  induction l as [|[key v] l IH]; intros result Hnd; simpl.
  - by rewrite (right_id_L ∅ (∪)).
  - apply NoDup_cons in Hnd as [Hkey Hnd]. rewrite IH by done.
    apply not_elem_of_list_to_map_1 in Hkey. simpl in Hkey.
    rewrite <- (insert_new_union key v result _ Hkey).
    unfold insert_new. rewrite lookup_union, Hkey.
    destruct (result !! key) eqn:E; simpl; [done |].
    by rewrite insert_union_l.
Qed.

Lemma insert_range_union result m : insert_range result m = result ∪ m.
Proof.
  unfold insert_range. rewrite foldl_insert_new by apply NoDup_fst_entries.
  by rewrite list_to_map_entries.
Qed.

Lemma subscript_lookup key m :
  subscript key m !! key = Some (default value_init (m !! key)).
Proof.
  unfold subscript. destruct (m !! key) eqn:E; simpl; [done |].
  apply lookup_insert_eq.
Qed.

Lemma insert_subscript key v m : <[key := v]> (subscript key m) = <[key := v]> m.
Proof.
  unfold subscript. destruct (m !! key); [done | apply insert_insert_eq].
Qed.

Lemma subscript_op_at cm key i b :
  GetBucket cm key = Returns i →
  buckets_ cm !! i = Some b →
  subscript_op cm key =
    if mutex b then Blocks
    else Returns (mkAccess i (i, key),
           mkConcurrentMap (<[i := mkBucket true (subscript key (map b))]> (buckets_ cm))).
Proof.
  intros Hi Hb. pose proof (lookup_lt_Some _ _ _ Hb) as Hlt.
  unfold subscript_op, Access_ctor, guard_ctor, map_subscript. rewrite Hi. simpl.
  rewrite (with_bucket_at _ _ _ _ Hb). unfold lock.
  destruct (mutex b); simpl; [done |].
  unfold with_bucket. simpl. rewrite list_lookup_insert_eq by done. simpl.
  by rewrite list_insert_insert_eq.
Qed.

Lemma update_through_at cm key f i b :
  GetBucket cm key = Returns i →
  buckets_ cm !! i = Some b →
  update_through key f cm =
    if mutex b then Blocks
    else w ← f (default value_init (map b !! key));
         mret (mkConcurrentMap (<[i := mkBucket false (<[key := w]> (map b))]> (buckets_ cm))).
Proof.
  intros Hi Hb. pose proof (lookup_lt_Some _ _ _ Hb) as Hlt.
  unfold update_through. rewrite (subscript_op_at _ _ _ _ Hi Hb).
  destruct (mutex b); simpl; [done |].
  unfold deref. cbn [fst snd buckets_ ref_to_value].
  rewrite list_lookup_insert_eq by done.
  cbn [mbind option_bind map]. rewrite subscript_lookup.
  cbn [mbind outcome_bind].
  destruct (f (default value_init (map b !! key))) as [w| | |]; simpl; try done.
  unfold assign, Access_dtor, with_bucket. simpl.
  rewrite list_lookup_insert_eq by done. simpl. rewrite subscript_lookup. simpl.
  rewrite list_lookup_insert_eq by (by rewrite length_insert). simpl.
  by rewrite !list_insert_insert_eq, insert_subscript.
Qed.

Lemma erase_at cm key i b :
  GetBucket cm key = Returns i →
  buckets_ cm !! i = Some b →
  erase key cm =
    if mutex b then Blocks
    else Returns (mkConcurrentMap (<[i := mkBucket false (delete key (map b))]> (buckets_ cm))).
Proof.
  intros Hi Hb. pose proof (lookup_lt_Some _ _ _ Hb) as Hlt.
  unfold erase, guard_ctor, map_erase. rewrite Hi. simpl.
  rewrite (with_bucket_at _ _ _ _ Hb). unfold lock.
  destruct (mutex b); simpl; [done |].
  unfold with_bucket. simpl. rewrite list_lookup_insert_eq by done. simpl.
  rewrite list_lookup_insert_eq by (by rewrite length_insert). simpl.
  by rewrite !list_insert_insert_eq.
Qed.

Lemma BuildOrdinaryMap_body_at i result cm b :
  buckets_ cm !! i = Some b →
  BuildOrdinaryMap_body i (result, cm) =
    if mutex b then Blocks else Returns (result ∪ map b, cm).
Proof.
  intros Hb. pose proof (lookup_lt_Some _ _ _ Hb) as Hlt.
  unfold BuildOrdinaryMap_body, guard_ctor. simpl.
  rewrite (with_bucket_at _ _ _ _ Hb). unfold lock.
  destruct b as [[] m]; simpl; [done |].
  rewrite list_lookup_insert_eq by done. simpl.
  unfold with_bucket. simpl. rewrite list_lookup_insert_eq by done. simpl.
  rewrite list_insert_insert_eq, list_insert_id by done.
  rewrite insert_range_union. by destruct cm.
Qed.

Lemma BuildOrdinaryMap_loop_from n : ∀ j result cm,
  (j + n)%nat = length (buckets_ cm) →
  BuildOrdinaryMap_loop (seq j n) (result, cm) =
    if decide (Forall (λ b, mutex b = false) (drop j (buckets_ cm)))
    then Returns (foldl (λ r b, r ∪ map b) result (drop j (buckets_ cm)), cm)
    else Blocks.
Proof.
  induction n as [|n IH]; intros j result cm Hlen; simpl.
  - rewrite drop_ge by lia. by rewrite decide_True by constructor.
  - destruct (lookup_lt_is_Some_2 (buckets_ cm) j) as [b Hb]; [lia |].
    rewrite (drop_S _ _ _ Hb), (BuildOrdinaryMap_body_at _ _ _ _ Hb).
    destruct (mutex b) eqn:Hm; simpl.
    + rewrite decide_False; [done |]. intros HF. inversion HF; congruence.
    + rewrite IH by lia. simpl.
      destruct (decide (Forall _ (drop (S j) _))) as [HF | HF].
      * by rewrite decide_True by (by constructor).
      * rewrite decide_False; [done |]. intros HF'. by inversion HF'.
Qed.

(** [BuildOrdinaryMap] returns the entries of all buckets and the map as it
    was, or waits for a mutex. *)
Lemma BuildOrdinaryMap_eq cm :
  BuildOrdinaryMap cm =
    if decide (all_free cm) then Returns (contents cm, cm) else Blocks.
Proof.
  unfold BuildOrdinaryMap. by rewrite BuildOrdinaryMap_loop_from by done.
Qed.

End Sequential.

(** ** The entries of all buckets *)

Section Contents.
Context {Value : Type} `{!DefaultConstructible Value}.
Implicit Types (cm : ConcurrentMap Value) (b : Bucket Value).
Implicit Types (m result : gmap Z Value) (l : list (Bucket Value)).

Lemma foldl_union_skip l : ∀ result key,
  Forall (λ b, map b !! key = None) l →
  foldl (λ r b, r ∪ map b) result l !! key = result !! key.
Proof.
  induction l as [|b l IH]; intros result key HF; simpl; [done |].
  inversion_clear HF as [|? ? Hb Hl]. rewrite IH by done.
  rewrite lookup_union, Hb. by destruct (result !! key).
Qed.

Lemma foldl_union_None l : ∀ result key,
  foldl (λ r b, r ∪ map b) result l !! key = None →
  result !! key = None ∧ Forall (λ b, map b !! key = None) l.
Proof.
  induction l as [|b l IH]; intros result key H; simpl in *; [done |].
  apply IH in H as [H Hl]. apply lookup_union_None in H as [? ?].
  split; [done | by constructor].
Qed.

Lemma contents_lookup_None cm key i b :
  contents cm !! key = None → buckets_ cm !! i = Some b → map b !! key = None.
Proof.
  intros H Hb. apply foldl_union_None in H as [_ HF].
  rewrite Forall_lookup in HF. by apply (HF i).
Qed.

Lemma contents_lookup_only cm key i b :
  buckets_ cm !! i = Some b →
  (∀ j b', j ≠ i → buckets_ cm !! j = Some b' → map b' !! key = None) →
  contents cm !! key = map b !! key.
Proof.
  intros Hb Hothers. unfold contents.
  rewrite <- (take_drop_middle _ _ _ Hb), foldl_app. simpl.
  pose proof (lookup_lt_Some _ _ _ Hb) as Hlt.
  rewrite foldl_union_skip.
  - rewrite lookup_union, foldl_union_skip, lookup_empty.
    + by destruct (map b !! key).
    + apply Forall_lookup. intros j b' Hj.
      apply lookup_take_Some in Hj as [Hj ?]. apply (Hothers j); [lia | done].
  - apply Forall_lookup. intros j b' Hj. rewrite lookup_drop in Hj.
    apply (Hothers (S i + j)%nat); [lia | done].
Qed.

Lemma contents_lookup cm key i b :
  partitioned cm →
  GetBucket cm key = Returns i →
  buckets_ cm !! i = Some b →
  contents cm !! key = map b !! key.
Proof.
  intros Hp Hi Hb. apply (contents_lookup_only cm key i b); [done |].
  intros j b' Hne Hj. destruct (map b' !! key) eqn:E; [| done].
  assert (GetBucket cm key = Returns j) by (apply (Hp j b'); eauto).
  congruence.
Qed.

(** Replacing the map of the bucket of [key] by one that differs at [key]
    only keeps the partition, whatever the state of the mutex. *)
Lemma partitioned_replace cm key i b mu m :
  partitioned cm →
  GetBucket cm key = Returns i →
  buckets_ cm !! i = Some b →
  (∀ k, k ≠ key → m !! k = map b !! k) →
  partitioned (mkConcurrentMap (<[i := mkBucket mu m]> (buckets_ cm))).
Proof.
  intros Hp Hi Hb Hm j b' k Hj Hk. simpl in *.
  erewrite GetBucket_same_length by (simpl; apply length_insert).
  destruct (decide (j = i)) as [-> |].
  - rewrite list_lookup_insert_eq in Hj by (by eapply lookup_lt_Some).
    injection Hj as <-. simpl in Hk.
    destruct (decide (k = key)) as [-> | Hne]; [done |].
    rewrite Hm in Hk by done. by apply (Hp i b).
  - rewrite list_lookup_insert_ne in Hj by done. by apply (Hp j b').
Qed.

Lemma quiescent_replace cm key i b m :
  quiescent cm →
  GetBucket cm key = Returns i →
  buckets_ cm !! i = Some b →
  (∀ k, k ≠ key → m !! k = map b !! k) →
  quiescent (mkConcurrentMap (<[i := mkBucket false m]> (buckets_ cm))).
Proof.
  intros (Hn & Hfree & Hp) Hi Hb Hm.
  split; [| split]; simpl.
  - by rewrite length_insert.
  - unfold all_free. simpl. apply Forall_insert; done.
  - by apply (partitioned_replace cm key i b).
Qed.

Lemma contents_replace_any cm key i b mu m :
  (0 < length (buckets_ cm))%nat →
  partitioned cm →
  GetBucket cm key = Returns i →
  buckets_ cm !! i = Some b →
  (∀ k, k ≠ key → m !! k = map b !! k) →
  ∀ k, contents (mkConcurrentMap (<[i := mkBucket mu m]> (buckets_ cm))) !! k =
       if decide (k = key) then m !! key else contents cm !! k.
Proof.
  intros Hn Hp Hi Hb Hm k.
  pose proof (partitioned_replace _ _ _ _ mu _ Hp Hi Hb Hm) as Hp'.
  pose proof (lookup_lt_Some _ _ _ Hb) as Hlt.
  destruct (GetBucket_in_bounds cm k Hn) as (j & bj & Hj & _ & Hbj).
  assert (Hj' : GetBucket (mkConcurrentMap (<[i := mkBucket mu m]> (buckets_ cm))) k
                = Returns j).
  { erewrite GetBucket_same_length by (simpl; apply length_insert). done. }
  rewrite (contents_lookup cm k j bj) by done.
  destruct (decide (j = i)) as [-> |].
  - rewrite (contents_lookup _ k i (mkBucket mu m)); [| done | done |].
    + simpl. replace bj with b by congruence.
      case_decide; [by subst | by apply Hm].
    + simpl. by apply list_lookup_insert_eq.
  - rewrite (contents_lookup _ k j bj); [| done | done |].
    + case_decide; [subst; congruence | done].
    + simpl. by rewrite list_lookup_insert_ne.
Qed.

Lemma contents_replace_any_eq cm key i b mu m :
  (0 < length (buckets_ cm))%nat →
  partitioned cm →
  GetBucket cm key = Returns i →
  buckets_ cm !! i = Some b →
  (∀ k, k ≠ key → m !! k = map b !! k) →
  contents (mkConcurrentMap (<[i := mkBucket mu m]> (buckets_ cm))) =
    match m !! key with
    | Some v => <[key := v]> (contents cm)
    | None => delete key (contents cm)
    end.
Proof.
  intros Hn Hp Hi Hb Hm. apply map_eq. intros k.
  rewrite (contents_replace_any cm key i b mu m) by done.
  destruct (m !! key) eqn:E.
  - rewrite lookup_insert. repeat case_decide; congruence.
  - rewrite lookup_delete. repeat case_decide; congruence.
Qed.

Lemma quiescent_ctor (bucket_count : nat) :
  (0 < bucket_count)%nat →
  quiescent (mkConcurrentMap (replicate bucket_count (mkBucket false (∅ : gmap Z Value)))).
Proof.
  intros Hn. split; [| split]; simpl.
  - by rewrite length_replicate.
  - apply Forall_replicate. done.
  - intros i b key Hb [v Hv]. apply lookup_replicate in Hb as [-> _].
    simpl in Hv. by rewrite lookup_empty in Hv.
Qed.

Lemma contents_ctor (bucket_count : nat) :
  contents (mkConcurrentMap (replicate bucket_count (mkBucket false (∅ : gmap Z Value)))) = ∅.
Proof.
  apply map_eq. intros k. unfold contents. simpl.
  rewrite foldl_union_skip; [done |].
  apply Forall_replicate. apply lookup_empty.
Qed.

End Contents.

(** ** The calls of the interface *)

Section Interface.
Context {Value : Type} `{!DefaultConstructible Value}.
Implicit Types (cm : ConcurrentMap Value) (b : Bucket Value).
Implicit Types (m result : gmap Z Value) (f : Value → outcome Value).

(** C10: with N > 0 buckets the index computed for a key is below N and
    names a bucket of the table, so no call divides by zero or leaves the
    table: [operator[]], [erase] and [BuildOrdinaryMap] are never
    undefined. *)
Theorem GetBucket_total_in_bounds cm key :
  (0 < length (buckets_ cm))%nat →
  (∃ i b, GetBucket cm key = Returns i
          ∧ i = Z.to_nat (static_cast_uint64 key mod Z.of_nat (length (buckets_ cm)))
          ∧ (i < length (buckets_ cm))%nat
          ∧ buckets_ cm !! i = Some b)
  ∧ subscript_op cm key ≠ Undefined
  ∧ erase key cm ≠ Undefined
  ∧ BuildOrdinaryMap cm ≠ Undefined.
Proof.
  intros Hn. destruct (GetBucket_in_bounds cm key Hn) as (i & b & Hi & Hlt & Hb).
  split; [| split; [| split]].
  - exists i, b. repeat split; try done.
    rewrite GetBucket_index in Hi by done. congruence.
  - rewrite (subscript_op_at _ _ _ _ Hi Hb). by destruct (mutex b).
  - rewrite (erase_at _ _ _ _ Hi Hb). by destruct (mutex b).
  - rewrite BuildOrdinaryMap_eq. by case_decide.
Qed.

(** The constructor returns for a bucket count of zero: it does not fail. *)
Lemma ConcurrentMap_ctor_zero_returns :
  ConcurrentMap_ctor (Value := Z) 0 = Returns (mkConcurrentMap [])
  ∧ ConcurrentMap_ctor (Value := Z) 0 ≠ Throws.
Proof. split; [reflexivity | discriminate]. Qed.

(** C2, as the code has it: the constructor does not fail for a bucket
    count of zero. It returns a map with an empty table (the count is not
    replaced by a positive one); on that map [operator[]] and [erase] are
    undefined for every key and [BuildOrdinaryMap] returns the empty map. *)
Theorem ConcurrentMap_ctor_zero :
  ∃ cm, ConcurrentMap_ctor 0 = Returns cm
    ∧ length (buckets_ cm) = 0%nat
    ∧ (∀ key, subscript_op cm key = Undefined)
    ∧ (∀ key, erase key cm = Undefined)
    ∧ BuildOrdinaryMap cm = Returns (∅, cm).
Proof.
  exists (mkConcurrentMap []). repeat split.
Qed.

(** C3: on a map with buckets that partition the keys, when the mutex of
    the bucket of [key] is free, [operator[]] returns a handle for the slot
    of [key] in the bucket of [key]. When the map has no entry for [key], the
    entry with the default value is added and the reference reads the
    default value; when it has one, the entries stay as they are and the
    reference reads the value of the entry. *)
Theorem subscript_op_upsert cm key :
  (0 < length (buckets_ cm))%nat →
  partitioned cm →
  bucket_free cm key →
  ∃ a cm',
    subscript_op cm key = Returns (a, cm')
    ∧ GetBucket cm key = Returns (guard a)
    ∧ ref_to_value a = (guard a, key)
    ∧ partitioned cm'
    ∧ match contents cm !! key with
      | None =>
          contents cm' = <[key := value_init]> (contents cm)
          ∧ deref cm' (ref_to_value a) = Returns value_init
      | Some v =>
          contents cm' = contents cm
          ∧ (map <$> buckets_ cm') = (map <$> buckets_ cm)
          ∧ deref cm' (ref_to_value a) = Returns v
      end.
Proof.
  intros Hn Hp Hfree.
  destruct (GetBucket_in_bounds cm key Hn) as (i & b & Hi & Hlt & Hb).
  rewrite (subscript_op_at _ _ _ _ Hi Hb), (Hfree i b Hi Hb).
  eexists _, _. split; [done |]. simpl. split; [done |]. split; [done |].
  assert (Hm : ∀ k, k ≠ key → subscript key (map b) !! k = map b !! k).
  { intros k Hne. unfold subscript. destruct (map b !! key); [done |].
    by rewrite lookup_insert_ne. }
  split; [by apply (partitioned_replace cm key i b) |].
  rewrite (contents_replace_any_eq cm key i b true _ Hn Hp Hi Hb Hm).
  unfold deref. simpl. rewrite list_lookup_insert_eq by done. simpl.
  rewrite subscript_lookup, (contents_lookup cm key i b) by done.
  destruct (map b !! key) as [v|] eqn:E; simpl; [| done].
  split; [| split; [| done]].
  - apply insert_id. by rewrite (contents_lookup cm key i b).
  - rewrite list_fmap_insert. simpl. unfold subscript. rewrite E.
    apply list_insert_id. by rewrite list_lookup_fmap, Hb.
Qed.

End Interface.

(** ** Refinement of the map of the spec *)

Section Refinement.
Context {Value : Type} `{!DefaultConstructible Value}.
Implicit Types (cm : ConcurrentMap Value) (b : Bucket Value).
Implicit Types (m result : gmap Z Value) (f : Value → outcome Value).

Lemma quiescent_free cm i b :
  quiescent cm → buckets_ cm !! i = Some b → mutex b = false.
Proof.
  intros (_ & Hfree & _) Hb. unfold all_free in Hfree.
  rewrite Forall_lookup in Hfree. by apply (Hfree i).
Qed.

Lemma contents_replace_eq cm key i b m :
  quiescent cm →
  GetBucket cm key = Returns i →
  buckets_ cm !! i = Some b →
  (∀ k, k ≠ key → m !! k = map b !! k) →
  contents (mkConcurrentMap (<[i := mkBucket false m]> (buckets_ cm))) =
    match m !! key with
    | Some v => <[key := v]> (contents cm)
    | None => delete key (contents cm)
    end.
Proof.
  intros (Hn & _ & Hp). by apply contents_replace_any_eq.
Qed.

Lemma update_through_quiescent cm key f :
  quiescent cm →
  match f (default value_init (contents cm !! key)) with
  | Returns w =>
      ∃ cm', update_through key f cm = Returns cm'
        ∧ quiescent cm'
        ∧ contents cm' = <[key := w]> (contents cm)
        ∧ length (buckets_ cm') = length (buckets_ cm)
  | Throws => update_through key f cm = Throws
  | Blocks => update_through key f cm = Blocks
  | Undefined => update_through key f cm = Undefined
  end.
Proof.
  intros Hq. pose proof Hq as (Hn & _ & Hp).
  destruct (GetBucket_in_bounds cm key Hn) as (i & b & Hi & Hlt & Hb).
  rewrite (update_through_at _ _ _ _ _ Hi Hb), (quiescent_free _ _ _ Hq Hb).
  rewrite (contents_lookup cm key i b) by done.
  destruct (f _) as [w| | |]; simpl; try done.
  assert (Hm : ∀ k, k ≠ key → <[key := w]> (map b) !! k = map b !! k).
  { intros k Hne. by rewrite lookup_insert_ne. }
  eexists. split; [done |]. split; [| split].
  - by apply (quiescent_replace cm key i b).
  - rewrite (contents_replace_eq cm key i b) by done.
    by rewrite lookup_insert_eq.
  - simpl. apply length_insert.
Qed.

Lemma erase_quiescent cm key :
  quiescent cm →
  ∃ cm', erase key cm = Returns cm'
    ∧ quiescent cm'
    ∧ contents cm' = delete key (contents cm)
    ∧ length (buckets_ cm') = length (buckets_ cm)
    ∧ (contents cm !! key = None → cm' = cm).
Proof.
  intros Hq. pose proof Hq as (Hn & _ & Hp).
  destruct (GetBucket_in_bounds cm key Hn) as (i & b & Hi & Hlt & Hb).
  rewrite (erase_at _ _ _ _ Hi Hb), (quiescent_free _ _ _ Hq Hb).
  assert (Hm : ∀ k, k ≠ key → delete key (map b) !! k = map b !! k).
  { intros k Hne. by rewrite lookup_delete_ne. }
  eexists. split; [done |]. split; [| split; [| split]].
  - by apply (quiescent_replace cm key i b).
  - rewrite (contents_replace_eq cm key i b) by done.
    by rewrite lookup_delete_eq.
  - simpl. apply length_insert.
  - intros Habs. rewrite delete_id by (by eapply contents_lookup_None).
    pose proof (quiescent_free _ _ _ Hq Hb) as Hfree.
    destruct cm as [bs]. destruct b as [mu m]. simpl in *. subst mu.
    by rewrite list_insert_id.
Qed.

Lemma erase_free cm key :
  (0 < length (buckets_ cm))%nat →
  partitioned cm →
  bucket_free cm key →
  ∃ cm' i b,
    erase key cm = Returns cm'
    ∧ GetBucket cm key = Returns i
    ∧ buckets_ cm !! i = Some b
    ∧ buckets_ cm' = <[i := mkBucket false (delete key (map b))]> (buckets_ cm)
    ∧ partitioned cm'
    ∧ contents cm' = delete key (contents cm)
    ∧ (contents cm !! key = None → cm' = cm).
Proof.
  intros Hn Hp Hfree.
  destruct (GetBucket_in_bounds cm key Hn) as (i & b & Hi & Hlt & Hb).
  rewrite (erase_at _ _ _ _ Hi Hb), (Hfree i b Hi Hb).
  assert (Hm : ∀ k, k ≠ key → delete key (map b) !! k = map b !! k).
  { intros k Hne. by rewrite lookup_delete_ne. }
  eexists _, i, b. split; [done |]. split; [done |]. split; [done |].
  split; [done |]. split; [| split].
  - by apply (partitioned_replace cm key i b).
  - rewrite (contents_replace_any_eq cm key i b false _ Hn Hp Hi Hb Hm).
    by rewrite lookup_delete_eq.
  - intros Habs. rewrite delete_id by (by eapply contents_lookup_None).
    pose proof (Hfree i b Hi Hb) as Hmu.
    destruct cm as [bs]. destruct b as [mu m]. simpl in *. subst mu.
    by rewrite list_insert_id.
Qed.

Lemma BuildOrdinaryMap_quiescent cm :
  quiescent cm → BuildOrdinaryMap cm = Returns (contents cm, cm).
Proof.
  intros (_ & Hfree & _). rewrite BuildOrdinaryMap_eq. by rewrite decide_True.
Qed.

(** Each call does on the buckets what the spec's call does on one map. *)
Lemma run_call_refines c cm :
  quiescent cm →
  match spec_call c (contents cm) with
  | Returns m' =>
      ∃ cm', run_call c cm = Returns cm'
        ∧ quiescent cm'
        ∧ contents cm' = m'
        ∧ length (buckets_ cm') = length (buckets_ cm)
  | Throws => run_call c cm = Throws
  | Blocks => run_call c cm = Blocks
  | Undefined => run_call c cm = Undefined
  end.
Proof.
  intros Hq. destruct c as [key f | key |]; simpl.
  - pose proof (update_through_quiescent cm key f Hq) as H.
    destruct (f _) as [w| | |]; simpl; done.
  - destruct (erase_quiescent cm key Hq) as (cm' & ? & ? & ? & ? & _). eauto.
  - rewrite BuildOrdinaryMap_quiescent by done. simpl. eauto.
Qed.

Lemma run_calls_refines cs : ∀ cm,
  quiescent cm →
  match spec_calls cs (contents cm) with
  | Returns m' =>
      ∃ cm', run_calls cs cm = Returns cm'
        ∧ quiescent cm'
        ∧ contents cm' = m'
        ∧ length (buckets_ cm') = length (buckets_ cm)
  | Throws => run_calls cs cm = Throws
  | Blocks => run_calls cs cm = Blocks
  | Undefined => run_calls cs cm = Undefined
  end.
Proof.
  induction cs as [|c cs IH]; intros cm Hq; simpl.
  - eauto.
  - pose proof (run_call_refines c cm Hq) as Hc.
    destruct (spec_call c (contents cm)) as [m1| | |]; simpl;
      [| by rewrite Hc ..].
    destruct Hc as (cm1 & -> & Hq1 & <- & Hlen). simpl.
    specialize (IH cm1 Hq1).
    destruct (spec_calls cs (contents cm1)) as [m2| | |]; [| done ..].
    destruct IH as (cm2 & ? & ? & ? & ?). exists cm2.
    split; [done |]. split; [done |]. split; [done | congruence].
Qed.

(** What a run of calls returns is quiescent when it started so. *)
Lemma run_calls_quiescent cs cm cm' :
  quiescent cm → run_calls cs cm = Returns cm' →
  quiescent cm' ∧ length (buckets_ cm') = length (buckets_ cm).
Proof.
  intros Hq Hrun. pose proof (run_calls_refines cs cm Hq) as H.
  destruct (spec_calls cs (contents cm)); [| congruence ..].
  destruct H as (cm2 & Hrun2 & ? & _ & ?). by replace cm' with cm2 by congruence.
Qed.

End Refinement.

(** ** The map of the spec, in words *)

Section SpecMap.
Context {Value : Type} `{!DefaultConstructible Value}.
Implicit Types (m result : gmap Z Value) (f : Value → outcome Value).
Implicit Types (c : call Value) (cs : list (call Value)).

Lemma bind_Returns {A B} (x : outcome A) (k : A → outcome B) y :
  x ≫= k = Returns y → ∃ a, x = Returns a ∧ k a = Returns y.
Proof. destruct x; simpl; [eauto | done ..]. Qed.

Lemma spec_calls_app cs1 cs2 m :
  spec_calls (cs1 ++ cs2) m = spec_calls cs1 m ≫= spec_calls cs2.
Proof.
  revert m. induction cs1 as [|c cs1 IH]; intros m; simpl; [done |].
  destruct (spec_call c m); simpl; [apply IH | done ..].
Qed.

Lemma spec_call_other c m m' key :
  call_key c ≠ Some key → spec_call c m = Returns m' → m' !! key = m !! key.
Proof.
  destruct c as [k f | k |]; simpl; intros Hk H.
  - apply bind_Returns in H as (w & _ & [= <-]).
    apply lookup_insert_ne. congruence.
  - injection H as <-. apply lookup_delete_ne. congruence.
  - by injection H as <-.
Qed.

Lemma spec_calls_other cs : ∀ m m' key,
  Forall (λ c, call_key c ≠ Some key) cs →
  spec_calls cs m = Returns m' → m' !! key = m !! key.
Proof.
  induction cs as [|c cs IH]; intros m m' key HF H; simpl in *.
  - by injection H as <-.
  - inversion_clear HF as [|? ? Hc Hcs].
    apply bind_Returns in H as (m1 & H1 & H2).
    rewrite (IH _ _ _ Hcs H2). by eapply spec_call_other.
Qed.

Lemma spec_calls_kept cs : ∀ m m' key,
  erase_key key ∉ cs → is_Some (m !! key) →
  spec_calls cs m = Returns m' → is_Some (m' !! key).
Proof.
  induction cs as [|c cs IH]; intros m m' key Hne Hm H; simpl in *.
  - by injection H as <-.
  - apply not_elem_of_cons in Hne as [Hc Hcs].
    apply bind_Returns in H as (m1 & H1 & H2).
    apply (IH m1 m' key Hcs); [| done].
    destruct c as [k f | k |]; simpl in H1.
    + apply bind_Returns in H1 as (w & _ & [= <-]).
      rewrite lookup_insert_is_Some. destruct (decide (k = key)); eauto.
    + injection H1 as <-. rewrite lookup_delete_is_Some. split; congruence.
    + by injection H1 as <-.
Qed.

(** A key is in the map of the spec exactly when some access to it is not
    followed by an erase of it. *)
Lemma spec_calls_dom cs : ∀ m' key,
  spec_calls cs ∅ = Returns m' →
  is_Some (m' !! key) ↔
    ∃ before f after, cs = before ++ access key f :: after ∧ erase_key key ∉ after.
Proof.
  induction cs as [|c cs IH] using rev_ind; intros m' key H.
  - injection H as <-. rewrite lookup_empty. split.
    + by intros [? ?].
    + intros (before & f & after & Heq & _). by destruct before.
  - rewrite spec_calls_app in H. apply bind_Returns in H as (m1 & H1 & H2).
    simpl in H2. apply bind_Returns in H2 as (m2 & H2 & [= <-]). split.
    + intros Hsome. destruct c as [k f | k |]; simpl in H2.
      * apply bind_Returns in H2 as (w & _ & [= <-]).
        destruct (decide (k = key)) as [-> | Hne].
        { exists cs, f, []. split; [done | apply not_elem_of_nil]. }
        rewrite lookup_insert_ne in Hsome by done.
        apply (IH _ _ H1) in Hsome as (before & g & after & -> & Hafter).
        exists before, g, (after ++ [access k f]).
        split; [by rewrite <- app_assoc |].
        rewrite not_elem_of_app. split; [done |].
        apply not_elem_of_cons. split; [congruence | apply not_elem_of_nil].
      * injection H2 as <-. apply lookup_delete_is_Some in Hsome as [Hne Hsome].
        apply (IH _ _ H1) in Hsome as (before & g & after & -> & Hafter).
        exists before, g, (after ++ [erase_key k]).
        split; [by rewrite <- app_assoc |].
        rewrite not_elem_of_app. split; [done |].
        apply not_elem_of_cons. split; [congruence | apply not_elem_of_nil].
      * injection H2 as <-.
        apply (IH _ _ H1) in Hsome as (before & g & after & -> & Hafter).
        exists before, g, (after ++ [snapshot]).
        split; [by rewrite <- app_assoc |].
        rewrite not_elem_of_app. split; [done |].
        apply not_elem_of_cons. split; [congruence | apply not_elem_of_nil].
    + intros (before & g & after & Heq & Hafter).
      destruct after as [|c' after _] using rev_ind.
      * apply app_inj_tail in Heq as [-> ->]. simpl in H2.
        apply bind_Returns in H2 as (w & _ & [= <-]).
        rewrite lookup_insert_eq. eauto.
      * rewrite app_comm_cons, app_assoc in Heq.
        apply app_inj_tail in Heq as [-> ->].
        apply not_elem_of_app in Hafter as [Hafter Hc].
        apply not_elem_of_cons in Hc as [Hc _].
        apply (spec_calls_kept [c'] m1).
        { apply not_elem_of_cons. split; [done | apply not_elem_of_nil]. }
        { apply (IH _ _ H1). eauto. }
        simpl. by rewrite H2.
Qed.

(** The value of a key is what the last access to it wrote, when no later
    call works on the key; that access saw the default value if the key was
    absent before it. *)
Lemma spec_calls_last_write before key f after m' :
  Forall (λ c, call_key c ≠ Some key) after →
  spec_calls (before ++ access key f :: after) ∅ = Returns m' →
  ∃ m0 w, spec_calls before ∅ = Returns m0
    ∧ f (default value_init (m0 !! key)) = Returns w
    ∧ m' !! key = Some w.
Proof.
  intros Hafter H. rewrite spec_calls_app in H.
  apply bind_Returns in H as (m0 & H0 & H). simpl in H.
  apply bind_Returns in H as (m1 & H1 & H2).
  apply bind_Returns in H1 as (w & Hw & [= <-]).
  exists m0, w. split; [done |]. split; [done |].
  rewrite (spec_calls_other _ _ _ _ Hafter H2). apply lookup_insert_eq.
Qed.

Lemma spec_calls_returns cs : ∀ m,
  Forall mutation_returns cs → ∃ m', spec_calls cs m = Returns m'.
Proof.
  induction cs as [|c cs IH]; intros m HF; simpl; [eauto |].
  inversion_clear HF as [|? ? Hc Hcs].
  destruct c as [k f | k |]; simpl in *.
  - destruct (Hc (default value_init (m !! k))) as [w ->]. simpl. by apply IH.
  - by apply IH.
  - by apply IH.
Qed.

End SpecMap.

(** ** Clients on one thread *)

Section Clients.
Context {Value : Type} `{!DefaultConstructible Value}.
Implicit Types (cm : ConcurrentMap Value) (b : Bucket Value).
Implicit Types (m result : gmap Z Value) (f : Value → outcome Value).
Implicit Types (c : call Value) (cs : list (call Value)).

Lemma with_bucket_length i g cm cm' :
  with_bucket i g cm = Returns cm' →
  length (buckets_ cm') = length (buckets_ cm).
Proof.
  unfold with_bucket. destruct (buckets_ cm !! i) as [b|]; [| done].
  intros H. apply bind_Returns in H as (b' & _ & [= <-]). simpl.
  apply length_insert.
Qed.

Lemma BuildOrdinaryMap_Returns cm result cm' :
  BuildOrdinaryMap cm = Returns (result, cm') → cm' = cm ∧ result = contents cm.
Proof. rewrite BuildOrdinaryMap_eq. case_decide; [| done]. by intros [= <- <-]. Qed.

(** No call changes the number of buckets, whatever the state it runs on. *)
Lemma run_call_length c cm cm' :
  run_call c cm = Returns cm' → length (buckets_ cm') = length (buckets_ cm).
Proof.
  destruct c as [key f | key |]; simpl; intros H.
  - unfold update_through, subscript_op, Access_ctor, guard_ctor, map_subscript in H.
    apply bind_Returns in H as ([a cm2] & H1 & H).
    apply bind_Returns in H1 as (i & _ & H1).
    apply bind_Returns in H1 as (cm1 & Hl1 & H1).
    apply bind_Returns in H1 as (cm1' & Hl2 & [= <- <-]).
    apply bind_Returns in H as (v & _ & H).
    apply bind_Returns in H as (w & _ & H).
    apply bind_Returns in H as (cm3 & Hl3 & Hl4).
    apply with_bucket_length in Hl1, Hl2, Hl3, Hl4. congruence.
  - unfold erase, guard_ctor, map_erase in H.
    apply bind_Returns in H as (i & _ & H).
    apply bind_Returns in H as (cm1 & Hl1 & H).
    apply bind_Returns in H as (cm2 & Hl2 & Hl3).
    apply with_bucket_length in Hl1, Hl2, Hl3. congruence.
  - apply bind_Returns in H as ([result cm1] & H1 & [= <-]).
    by apply BuildOrdinaryMap_Returns in H1 as [-> _].
Qed.

Lemma run_calls_length cs : ∀ cm cm',
  run_calls cs cm = Returns cm' → length (buckets_ cm') = length (buckets_ cm).
Proof.
  induction cs as [|c cs IH]; intros cm cm' H; simpl in H.
  - by injection H as <-.
  - apply bind_Returns in H as (cm1 & H1 & H2).
    apply run_call_length in H1. apply IH in H2. congruence.
Qed.

(** On a table without buckets only [BuildOrdinaryMap] returns. *)
Lemma run_calls_empty cs : ∀ cm cm',
  length (buckets_ cm) = 0%nat → run_calls cs cm = Returns cm' → cm' = cm.
Proof.
  induction cs as [|c cs IH]; intros cm cm' Hlen H; simpl in H.
  - by injection H as <-.
  - apply bind_Returns in H as (cm1 & H1 & H2).
    assert (cm1 = cm) as ->.
    { destruct c as [key f | key |]; simpl in H1.
      - unfold update_through, subscript_op in H1.
        by rewrite GetBucket_empty in H1.
      - unfold erase in H1. by rewrite GetBucket_empty in H1.
      - apply bind_Returns in H1 as ([result cm2] & H1 & [= <-]).
        by apply BuildOrdinaryMap_Returns in H1 as [-> _]. }
    by apply IH.
Qed.

Lemma partitioned_index cm i b key :
  partitioned cm → buckets_ cm !! i = Some b → is_Some (map b !! key) →
  Z.of_nat i = static_cast_uint64 key mod Z.of_nat (length (buckets_ cm)).
Proof.
  intros Hp Hb Hk. pose proof (Hp i b key Hb Hk) as Hi.
  pose proof (lookup_lt_Some _ _ _ Hb) as Hlt.
  rewrite GetBucket_index in Hi by lia. injection Hi as Hi.
  pose proof (Z.mod_pos_bound (static_cast_uint64 key)
                (Z.of_nat (length (buckets_ cm)))). lia.
Qed.

Lemma partitioned_disjoint cm i j bi bj key :
  partitioned cm →
  buckets_ cm !! i = Some bi → buckets_ cm !! j = Some bj →
  is_Some (map bi !! key) → is_Some (map bj !! key) → i = j.
Proof.
  intros Hp Hi Hj Hki Hkj.
  pose proof (Hp i bi key Hi Hki). pose proof (Hp j bj key Hj Hkj). congruence.
Qed.

Lemma partitioned_empty cm : length (buckets_ cm) = 0%nat → partitioned cm.
Proof.
  intros Hlen i b key Hb. apply lookup_lt_Some in Hb. lia.
Qed.

(** Every state a client reaches from the constructor partitions the keys. *)
Lemma reachable_partitioned (bucket_count : nat) cs cm0 cm :
  ConcurrentMap_ctor bucket_count = Returns cm0 →
  run_calls cs cm0 = Returns cm →
  partitioned cm ∧ length (buckets_ cm) = bucket_count.
Proof.
  intros [= <-] Hrun. destruct (decide (bucket_count = 0)%nat) as [-> | Hn].
  - apply run_calls_empty in Hrun as ->; [| done].
    split; [by apply partitioned_empty | done].
  - destruct (run_calls_quiescent cs _ cm (quiescent_ctor bucket_count ltac:(lia)) Hrun)
      as [(_ & _ & Hp) Hlen].
    split; [done |]. simpl in Hlen. by rewrite length_replicate in Hlen.
Qed.

End Clients.

Lemma example_map_quiescent : quiescent example_map.
Proof.
  split; [simpl; lia |]. split.
  - repeat constructor.
  - intros i b key Hb [v Hv].
    destruct i as [|[|[|i]]]; simpl in Hb; try done; injection Hb as <-;
      simpl in Hv.
    + apply lookup_singleton_Some in Hv as [<- _]. reflexivity.
    + apply lookup_singleton_Some in Hv as [<- _]. reflexivity.
    + by rewrite lookup_empty in Hv.
Qed.

Lemma example_map_free i b : buckets_ example_map !! i = Some b → mutex b = false.
Proof. apply quiescent_free, example_map_quiescent. Qed.

Lemma subscript_op_upsert_witness :
  (∃ a cm', subscript_op example_map 4 = Returns (a, cm')
     ∧ contents cm' = <[4 := 0]> (contents example_map)
     ∧ deref cm' (ref_to_value a) = Returns 0)
  ∧ (∃ a cm', subscript_op example_map (-1) = Returns (a, cm')
     ∧ contents cm' = contents example_map
     ∧ deref cm' (ref_to_value a) = Returns 1).
Proof.
  destruct example_map_quiescent as (Hn & Hfree & Hp).
  split.
  - destruct (subscript_op_upsert example_map 4 Hn Hp)
      as (a & cm' & H1 & _ & _ & _ & H4).
    { intros i b Hi Hb. by eapply example_map_free. }
    assert (Habs : contents example_map !! 4 = None) by reflexivity.
    rewrite Habs in H4. destruct H4 as [H4 H5].
    exists a, cm'. split; [exact H1 |]. split; [exact H4 | exact H5].
  - destruct (subscript_op_upsert example_map (-1) Hn Hp)
      as (a & cm' & H1 & _ & _ & _ & H4).
    { intros i b Hi Hb. by eapply example_map_free. }
    assert (Hpres : contents example_map !! (-1) = Some 1) by reflexivity.
    rewrite Hpres in H4. destruct H4 as (H4 & _ & H5).
    exists a, cm'. split; [exact H1 |]. split; [exact H4 | exact H5].
Defined.

Section ClaimsOneThread.
Context {Value : Type} `{!DefaultConstructible Value}.
Implicit Types (cm : ConcurrentMap Value) (b : Bucket Value).
Implicit Types (m result : gmap Z Value) (f : Value → outcome Value).
Implicit Types (c : call Value) (cs : list (call Value)).

(** C4: on a map built with N > 0 buckets, [BuildOrdinaryMap] after a
    sequence of accesses and erases returns what the same calls leave in one
    ordinary map: the keys for which some access is not followed by an erase
    of the key, each with the value the last access to it wrote (starting
    from the default value when the key was absent). The run returns when
    every mutation returns, and the traversal of the result lists its
    entries by ascending key. *)
Theorem snapshot_after_calls (bucket_count : nat) cs :
  (0 < bucket_count)%nat →
  run_and_snapshot bucket_count cs = spec_calls cs ∅
  ∧ (Forall mutation_returns cs →
     ∃ result, run_and_snapshot bucket_count cs = Returns result)
  ∧ (∀ result, run_and_snapshot bucket_count cs = Returns result →
       StronglySorted key_le (entries result)
       ∧ (∀ key v, (key, v) ∈ entries result ↔ result !! key = Some v)
       ∧ (∀ key, is_Some (result !! key) ↔
          ∃ before f after,
            cs = before ++ access key f :: after ∧ erase_key key ∉ after)
       ∧ (∀ before key f after,
            cs = before ++ access key f :: after →
            Forall (λ c, call_key c ≠ Some key) after →
            ∃ m0 w, spec_calls before ∅ = Returns m0
              ∧ f (default value_init (m0 !! key)) = Returns w
              ∧ result !! key = Some w)).
Proof.
  intros Hn.
  assert (Heq : run_and_snapshot bucket_count cs = spec_calls cs ∅).
  { unfold run_and_snapshot, ConcurrentMap_ctor. simpl.
    pose proof (run_calls_refines cs _ (quiescent_ctor bucket_count Hn)) as H.
    rewrite contents_ctor in H.
    destruct (spec_calls cs ∅) as [m'| | |]; [| by rewrite H ..].
    destruct H as (cm' & -> & Hq & <- & _). simpl.
    by rewrite BuildOrdinaryMap_quiescent. }
  split; [done |]. rewrite Heq. split.
  - intros Hret. by apply spec_calls_returns.
  - intros result Hres.
    split; [apply entries_sorted |]. split; [apply elem_of_entries |]. split.
    + intros key. by apply spec_calls_dom.
    + intros before key f after -> Hafter.
      by apply (spec_calls_last_write before key f after).
Qed.

(** C5: on a map with buckets that partition the keys, when the mutex of
    the bucket of [key] is free, [erase] returns. When the map has no entry
    for the key, the state of every bucket is what it was, and so is what
    [BuildOrdinaryMap] returns; when it has one, the bucket of the key loses
    this entry and nothing else changes. *)
Theorem erase_removes_key cm key :
  (0 < length (buckets_ cm))%nat →
  partitioned cm →
  bucket_free cm key →
  ∃ cm',
    erase key cm = Returns cm'
    ∧ partitioned cm'
    ∧ length (buckets_ cm') = length (buckets_ cm)
    ∧ contents cm' = delete key (contents cm)
    ∧ (all_free cm →
       BuildOrdinaryMap cm' = Returns (delete key (contents cm), cm'))
    ∧ (contents cm !! key = None →
       cm' = cm ∧ BuildOrdinaryMap cm' = BuildOrdinaryMap cm)
    ∧ (∀ v, contents cm !! key = Some v →
       ∃ i b, GetBucket cm key = Returns i
         ∧ buckets_ cm !! i = Some b
         ∧ map b !! key = Some v
         ∧ buckets_ cm' = <[i := mkBucket false (delete key (map b))]> (buckets_ cm)).
Proof.
  intros Hn Hp Hfree.
  destruct (erase_free cm key Hn Hp Hfree)
    as (cm' & i & b & He & Hi & Hb & Hbs & Hp' & Hc & Habs).
  exists cm'. split; [done |]. split; [done |].
  split; [by rewrite Hbs, length_insert |]. split; [done |].
  split; [| split].
  - intros Hall. rewrite BuildOrdinaryMap_eq, decide_True, Hc; [done |].
    unfold all_free. rewrite Hbs. by apply Forall_insert.
  - intros Hnone. by rewrite (Habs Hnone).
  - intros v Hv. exists i, b. split; [done |]. split; [done |].
    split; [by rewrite <- (contents_lookup cm key i b) | done].
Qed.

(** C7: [BuildOrdinaryMap] leaves every bucket as it found it: the map it
    returns from is the map it was called on, in every state it returns
    from, and it returns whenever no guard is alive. *)
Theorem BuildOrdinaryMap_read_only cm :
  (∀ result cm', BuildOrdinaryMap cm = Returns (result, cm') →
     cm' = cm ∧ result = contents cm)
  ∧ (all_free cm → BuildOrdinaryMap cm = Returns (contents cm, cm))
  ∧ (∀ cm', run_call snapshot cm = Returns cm' → cm' = cm).
Proof.
  split; [| split].
  - intros result cm'. apply BuildOrdinaryMap_Returns.
  - intros Hfree. by rewrite BuildOrdinaryMap_eq, decide_True.
  - simpl. intros cm' H. apply bind_Returns in H as ([result cm1] & H & [= <-]).
    by apply BuildOrdinaryMap_Returns in H as [-> _].
Qed.

End ClaimsOneThread.

Lemma snapshot_after_calls_witness :
  run_and_snapshot 3
    [access 7 preinc; access (-2) preinc; access 7 preinc; erase_key (-2);
     access 9 Returns] = Returns {[ 7 := 2; 9 := 0 ]}.
Proof.
  destruct (snapshot_after_calls 3
    [access 7 preinc; access (-2) preinc; access 7 preinc; erase_key (-2);
     access 9 Returns]) as [H _].
  - lia.
  - rewrite H. reflexivity.
Defined.

Lemma erase_removes_key_witness :
  (∃ cm', erase 1 example_map = Returns cm'
     ∧ BuildOrdinaryMap cm' = Returns (delete 1 (contents example_map), cm'))
  ∧ erase 4 example_map = Returns example_map.
Proof.
  destruct example_map_quiescent as (Hn & Hfree & Hp).
  split.
  - destruct (erase_removes_key example_map 1 Hn Hp)
      as (cm' & H1 & _ & _ & _ & H4 & _).
    { intros i b Hi Hb. by eapply example_map_free. }
    exists cm'. split; [exact H1 | exact (H4 Hfree)].
  - destruct (erase_removes_key example_map 4 Hn Hp)
      as (cm' & H1 & _ & _ & _ & _ & H5 & _).
    { intros i b Hi Hb. by eapply example_map_free. }
    destruct H5 as [-> _]; [reflexivity | exact H1].
Defined.

Lemma BuildOrdinaryMap_read_only_witness :
  BuildOrdinaryMap example_map = Returns (contents example_map, example_map).
Proof.
  destruct (BuildOrdinaryMap_read_only example_map) as (_ & H & _).
  apply H. repeat constructor.
Defined.

Lemma GetBucket_total_in_bounds_witness :
  GetBucket example_map (-5) = Returns 2%nat
  ∧ subscript_op example_map (-5) ≠ Undefined.
Proof.
  destruct (GetBucket_total_in_bounds example_map (-5)) as ((i & b & H1 & -> & _) & H2 & _).
  - simpl. lia.
  - split; [exact H1 | exact H2].
Defined.

(** ** Several threads: the shared map against the quiescent one *)

Section Coupling.
Context {Value : Type} `{!DefaultConstructible Value}.
Implicit Types (cm abs : ConcurrentMap Value) (b : Bucket Value).
Implicit Types (t : thread Value) (ts : list (thread Value)).

(** One thread moves on and changes at most the bucket [i], which it holds
    before the step or finds free. *)
Lemma coupled_update ts cm abs tid t t' i b0 b0' a0 a0' :
  coupled ts cm abs →
  ts !! tid = Some t →
  buckets_ cm !! i = Some b0 →
  buckets_ abs !! i = Some a0 →
  (held_by t = Some i ∨ (held_by t = None ∧ mutex b0 = false)) →
  ((held_by t' = Some i ∧ mutex b0' = true ∧ owner_rel t' (map b0') (map a0'))
   ∨ (held_by t' = None ∧ b0' = a0')) →
  coupled (<[tid := t']> ts)
    (mkConcurrentMap (<[i := b0']> (buckets_ cm)))
    (mkConcurrentMap (<[i := a0']> (buckets_ abs))).
Proof.
  intros (Hlen & Huniq & Hheld & Hfree) Ht Hb0 Ha0 Hbefore Hafter.
  pose proof (lookup_lt_Some _ _ _ Ht) as Htid.
  pose proof (lookup_lt_Some _ _ _ Hb0) as Hi.
  pose proof (lookup_lt_Some _ _ _ Ha0) as Hi'.
  assert (Hothers : ∀ tid' t'', tid' ≠ tid → ts !! tid' = Some t'' →
            held_by t'' ≠ Some i).
  { intros tid' t'' Hne Ht'' Hh. destruct Hbefore as [Hb | [_ Hm]].
    - apply Hne. by apply (Huniq tid' tid t'' t i).
    - destruct (Hheld tid' t'' i Ht'' Hh) as (b & _ & Hb & _ & Hmb & _).
      congruence. }
  assert (Hnew : ∀ j, held_by t' = Some j → j = i).
  { intros j Hj. destruct Hafter as [(? & _) | (? & _)]; congruence. }
  split; [| split; [| split]]; simpl.
  - by rewrite !length_insert.
  - intros tid1 tid2 t1 t2 j H1 H2 Hh1 Hh2.
    destruct (decide (tid1 = tid)) as [-> | Hne1];
      destruct (decide (tid2 = tid)) as [-> | Hne2]; [done | | |].
    + rewrite list_lookup_insert_eq in H1 by done. injection H1 as <-.
      rewrite list_lookup_insert_ne in H2 by done.
      apply Hnew in Hh1 as ->. by destruct (Hothers tid2 t2).
    + rewrite list_lookup_insert_eq in H2 by done. injection H2 as <-.
      rewrite list_lookup_insert_ne in H1 by done.
      apply Hnew in Hh2 as ->. by destruct (Hothers tid1 t1).
    + rewrite list_lookup_insert_ne in H1, H2 by done. by eapply Huniq.
  - intros tid' t'' j Ht'' Hh.
    destruct (decide (tid' = tid)) as [-> | Hne].
    + rewrite list_lookup_insert_eq in Ht'' by done. injection Ht'' as <-.
      pose proof (Hnew j Hh) as ->.
      destruct Hafter as [(_ & Hm & Hrel) | (? & _)]; [| congruence].
      exists b0', a0'. by rewrite !list_lookup_insert_eq.
    + rewrite list_lookup_insert_ne in Ht'' by done.
      destruct (Hheld tid' t'' j Ht'' Hh) as (b & b_abs & ? & ? & ? & ?).
      assert (j ≠ i) by (intros ->; by destruct (Hothers tid' t'')).
      exists b, b_abs. by rewrite !list_lookup_insert_ne.
  - intros j b Hb Hnone.
    destruct (decide (j = i)) as [-> | Hne].
    + rewrite list_lookup_insert_eq in Hb by done. injection Hb as <-.
      rewrite list_lookup_insert_eq by done.
      destruct Hafter as [(Hh & _) | (_ & ->)]; [| done].
      destruct (Hnone tid t'); [by apply list_lookup_insert_eq | done].
    + rewrite list_lookup_insert_ne in Hb by done.
      rewrite list_lookup_insert_ne by done.
      apply Hfree; [done |]. intros tid' t'' Ht'' Hh.
      destruct (decide (tid' = tid)) as [-> | Hne'].
      * replace t'' with t in * by congruence.
        destruct Hbefore as [? | [? _]]; congruence.
      * apply (Hnone tid' t''); [by rewrite list_lookup_insert_ne | done].
Qed.

(** A bucket that a thread holds is held by this thread only. *)
Lemma coupled_held ts cm abs tid t i :
  coupled ts cm abs → ts !! tid = Some t → held_by t = Some i →
  ∃ b b_abs, buckets_ cm !! i = Some b ∧ buckets_ abs !! i = Some b_abs
    ∧ mutex b = true ∧ owner_rel t (map b) (map b_abs).
Proof. intros (_ & _ & Hheld & _). apply Hheld. Qed.

(** A locked bucket has a holder. *)
Lemma coupled_locked ts cm abs i b :
  coupled ts cm abs → quiescent abs →
  buckets_ cm !! i = Some b → mutex b = true →
  ∃ tid t, ts !! tid = Some t ∧ held_by t = Some i.
Proof.
  intros (_ & _ & _ & Hfree) Hq Hb Hm.
  destruct (decide (Exists (λ t, held_by t = Some i) ts)) as [HE | HE].
  - apply Exists_exists in HE as (t & Hin & Hh).
    apply list_elem_of_lookup in Hin as [tid Ht]. eauto.
  - assert (buckets_ abs !! i = Some b) as Habs.
    { apply Hfree; [done |]. intros tid t Ht Hh. apply HE.
      apply Exists_exists. exists t. split; [| done].
      apply list_elem_of_lookup. eauto. }
    by rewrite (quiescent_free _ _ _ Hq Habs) in Hm.
Qed.

(** When no thread is inside a statement the shared map is the quiescent
    one. *)
Lemma coupled_idle ts cm abs :
  coupled ts cm abs → Forall (λ t, held_by t = None) ts → cm = abs.
Proof.
  intros (Hlen & _ & _ & Hfree) Hidle.
  destruct cm as [bs], abs as [bs']. simpl in *. f_equal.
  apply list_eq. intros i. destruct (bs !! i) as [b|] eqn:Hb.
  - symmetry. apply Hfree; [done |]. intros tid t Ht.
    rewrite Forall_lookup in Hidle. by rewrite (Hidle tid t Ht).
  - symmetry. apply lookup_ge_None. apply lookup_ge_None in Hb. lia.
Qed.

End Coupling.

(** ** Several threads: every step keeps the invariant *)

Section Steps.
Context {Value : Type} `{!DefaultConstructible Value}.
Implicit Types (cm abs : ConcurrentMap Value) (b : Bucket Value).
Implicit Types (t : thread Value) (ts : list (thread Value)).
Implicit Types (programs dones : list (list (Z * (Value → outcome Value)))).
Implicit Types (h p d : list (Z * (Value → outcome Value))).

Lemma run_calls_app (cs1 cs2 : list (call Value)) cm :
  run_calls (cs1 ++ cs2) cm = run_calls cs1 cm ≫= run_calls cs2.
Proof.
  revert cm. induction cs1 as [|c cs1 IH]; intros cm; simpl; [done |].
  destruct (run_call c cm); simpl; [apply IH | done ..].
Qed.

Lemma insert_same cm i b :
  buckets_ cm !! i = Some b → mkConcurrentMap (<[i := b]> (buckets_ cm)) = cm.
Proof. intros Hb. rewrite list_insert_id by done. by destruct cm. Qed.

Lemma phase_ok_same_length cm cm' t :
  length (buckets_ cm') = length (buckets_ cm) → phase_ok cm t → phase_ok cm' t.
Proof.
  intros Hlen. unfold phase_ok.
  destruct (pc t), (todo t) as [|[key f] rest]; try done;
    by rewrite (GetBucket_same_length cm cm' key Hlen).
Qed.

Lemma coupled_length ts cm abs :
  coupled ts cm abs → length (buckets_ cm) = length (buckets_ abs).
Proof. by intros (? & _). Qed.

(** The same when the quiescent map stays, and when both maps stay. *)
Lemma coupled_update_shared ts cm abs tid t t' i b0 b0' a0 :
  coupled ts cm abs →
  ts !! tid = Some t →
  buckets_ cm !! i = Some b0 →
  buckets_ abs !! i = Some a0 →
  (held_by t = Some i ∨ (held_by t = None ∧ mutex b0 = false)) →
  ((held_by t' = Some i ∧ mutex b0' = true ∧ owner_rel t' (map b0') (map a0))
   ∨ (held_by t' = None ∧ b0' = a0)) →
  coupled (<[tid := t']> ts) (mkConcurrentMap (<[i := b0']> (buckets_ cm))) abs.
Proof.
  intros Hc Ht Hb0 Ha0 Hbefore Hafter.
  pose proof (coupled_update ts cm abs tid t t' i b0 b0' a0 a0
                Hc Ht Hb0 Ha0 Hbefore Hafter) as H.
  by rewrite (insert_same abs i a0) in H.
Qed.

Lemma coupled_update_thread ts cm abs tid t t' i b0 a0 :
  coupled ts cm abs →
  ts !! tid = Some t →
  buckets_ cm !! i = Some b0 →
  buckets_ abs !! i = Some a0 →
  held_by t = Some i →
  held_by t' = Some i →
  owner_rel t' (map b0) (map a0) →
  coupled (<[tid := t']> ts) cm abs.
Proof.
  intros Hc Ht Hb0 Ha0 Hbefore Hafter Hrel.
  destruct (coupled_held _ _ _ _ _ _ Hc Ht Hbefore) as (b & _ & Hb & _ & Hmb & _).
  replace b with b0 in * by congruence.
  pose proof (coupled_update_shared ts cm abs tid t t' i b0 b0 a0
                Hc Ht Hb0 Ha0 (or_introl Hbefore)
                (or_introl (conj Hafter (conj Hmb Hrel)))) as H.
  by rewrite (insert_same cm i b0) in H.
Qed.

(** The invariant after thread [tid] has moved from [t] to [t']. *)
Lemma linearized_update programs cm0 h dones abs ts tid p d t h' d' abs' t' cm' :
  length dones = length programs →
  length ts = length programs →
  (∀ tid p d t, programs !! tid = Some p → dones !! tid = Some d →
     ts !! tid = Some t → p = d ++ remaining t ∧ phase_ok abs t) →
  programs !! tid = Some p → dones !! tid = Some d → ts !! tid = Some t →
  merged (<[tid := d']> dones) h' →
  run_calls (stmt_call <$> h') cm0 = Returns abs' →
  quiescent abs' →
  length (buckets_ abs') = length (buckets_ abs) →
  coupled (<[tid := t']> ts) cm' abs' →
  p = d' ++ remaining t' →
  phase_ok abs' t' →
  linearized programs cm0 (mkSystem cm' (<[tid := t']> ts)).
Proof.
  intros Hld Hlt Hth Hp Hd Ht Hm Hrun Hq Hlen Hc Hp' Hok.
  exists h', (<[tid := d']> dones), abs'. simpl.
  split; [done |]. split; [done |]. split; [done |]. split; [done |].
  split; [by rewrite length_insert |]. split; [by rewrite length_insert |].
  intros tid' p' d'' t'' Hp'' Hd'' Ht''.
  destruct (decide (tid' = tid)) as [-> | Hne].
  - rewrite list_lookup_insert_eq in Hd'' by (by eapply lookup_lt_Some).
    rewrite list_lookup_insert_eq in Ht'' by (by eapply lookup_lt_Some).
    by replace p' with p by congruence; replace d'' with d' by congruence;
       replace t'' with t' by congruence.
  - rewrite list_lookup_insert_ne in Hd'' by done.
    rewrite list_lookup_insert_ne in Ht'' by done.
    destruct (Hth tid' p' d'' t'' Hp'' Hd'' Ht'') as [? ?].
    split; [done | by eapply phase_ok_same_length].
Qed.

End Steps.

Section OneStep.
Context {Value : Type} `{!DefaultConstructible Value}.
Implicit Types (b : Bucket Value) (t : thread Value).

Variables (programs : list (list (Z * (Value → outcome Value))))
          (cm0 : ConcurrentMap Value).
Variables (h : list (Z * (Value → outcome Value)))
          (dones : list (list (Z * (Value → outcome Value))))
          (abs cm : ConcurrentMap Value) (ts : list (thread Value)).
Variables (tid : nat) (p d : list (Z * (Value → outcome Value))).

Hypothesis Hsafe : sequentially_safe programs cm0.
Hypothesis Hm : merged dones h.
Hypothesis Hrun : run_calls (stmt_call <$> h) cm0 = Returns abs.
Hypothesis Hq : quiescent abs.
Hypothesis Hc : coupled ts cm abs.
Hypothesis Hld : length dones = length programs.
Hypothesis Hlt : length ts = length programs.
Hypothesis Hth : ∀ tid p d t,
  programs !! tid = Some p → dones !! tid = Some d → ts !! tid = Some t →
  p = d ++ remaining t ∧ phase_ok abs t.
Hypothesis Hp : programs !! tid = Some p.
Hypothesis Hd : dones !! tid = Some d.

Let stepped (t t' : thread Value) (cm' : ConcurrentMap Value) : Prop :=
  thread_step t cm = Returns (t', cm')
  ∧ linearized programs cm0 (mkSystem cm' (<[tid := t']> ts))
  ∧ (steps_left t' < steps_left t)%nat.

Lemma merged_same : merged (<[tid := d]> dones) h.
Proof using Hm Hd. by rewrite list_insert_id. Qed.

(** Building the guard: the thread waits, or locks the free bucket. *)
Lemma step_Idle key f rest :
  ts !! tid = Some (mkThread Idle ((key, f) :: rest)) →
  thread_step (mkThread Idle ((key, f) :: rest)) cm = Blocks
  ∨ ∃ t' cm', stepped (mkThread Idle ((key, f) :: rest)) t' cm'.
Proof using All.
  intros Ht. destruct (Hth _ _ _ _ Hp Hd Ht) as [Hrem _]. simpl in Hrem.
  pose proof (coupled_length _ _ _ Hc) as Hlen.
  pose proof Hq as (Hn & _ & _).
  destruct (GetBucket_in_bounds abs key Hn) as (i & a0 & Hi & Hlti & Ha0).
  destruct (lookup_lt_is_Some_2 (buckets_ cm) i) as [b0 Hb0]; [lia |].
  unfold stepped, thread_step, guard_ctor. simpl.
  rewrite (GetBucket_same_length abs cm key Hlen), Hi. simpl.
  rewrite (with_bucket_at _ _ _ _ Hb0). unfold lock.
  destruct (mutex b0) eqn:Hmb; simpl; [by left | right].
  eexists _, _. split; [done |]. split; [| unfold steps_left; simpl; lia].
  assert (Hnone : ∀ tid' t', ts !! tid' = Some t' → held_by t' ≠ Some i).
  { intros tid' t' Ht' Hh.
    destruct (coupled_held _ _ _ _ _ _ Hc Ht' Hh) as (b & _ & Hb & _ & Hmb' & _).
    congruence. }
  assert (Heq : buckets_ abs !! i = Some b0).
  { destruct Hc as (_ & _ & _ & Hfree). by apply Hfree. }
  replace a0 with b0 in * by congruence.
  eapply (linearized_update programs cm0 h dones abs ts tid p d);
    try done; try apply merged_same; try (unfold phase_ok; simpl; done).
  eapply coupled_update_shared; try done; [by right | left].
  split; [done |]. split; [done |]. done.
Qed.

(** Binding the reference: [bucket.map[key]]. *)
Lemma step_Guarded i key f rest :
  ts !! tid = Some (mkThread (Guarded i) ((key, f) :: rest)) →
  ∃ t' cm', stepped (mkThread (Guarded i) ((key, f) :: rest)) t' cm'.
Proof using All.
  intros Ht. destruct (Hth _ _ _ _ Hp Hd Ht) as [Hrem Hok].
  simpl in Hrem. unfold phase_ok in Hok. simpl in Hok.
  destruct (coupled_held _ _ _ _ _ i Hc Ht eq_refl)
    as (b0 & a0 & Hb0 & Ha0 & Hmb & Hrel).
  unfold owner_rel in Hrel. simpl in Hrel.
  unfold stepped, thread_step, map_subscript. simpl.
  rewrite (with_bucket_at _ _ _ _ Hb0). simpl.
  eexists _, _. split; [done |]. split; [| unfold steps_left; simpl; lia].
  eapply (linearized_update programs cm0 h dones abs ts tid p d);
    try done; try apply merged_same; try (unfold phase_ok; simpl; done).
  eapply coupled_update_shared; try done; [by left | left].
  split; [done |]. split; [done |]. unfold owner_rel. simpl. by rewrite Hrel.
Qed.

(** Reading through the reference. *)
Lemma step_Bound a key f rest :
  ts !! tid = Some (mkThread (Bound a) ((key, f) :: rest)) →
  ∃ t' cm', stepped (mkThread (Bound a) ((key, f) :: rest)) t' cm'.
Proof using All.
  intros Ht. destruct (Hth _ _ _ _ Hp Hd Ht) as [Hrem Hok].
  simpl in Hrem. unfold phase_ok in Hok. simpl in Hok. destruct Hok as [Hi Hr].
  destruct (coupled_held _ _ _ _ _ (guard a) Hc Ht eq_refl)
    as (b0 & a0 & Hb0 & Ha0 & Hmb & Hrel).
  unfold owner_rel in Hrel. simpl in Hrel.
  unfold stepped, thread_step, deref. simpl. rewrite Hr. simpl.
  rewrite Hb0. simpl. rewrite Hrel, subscript_lookup. simpl.
  eexists _, _. split; [done |]. split; [| unfold steps_left; simpl; lia].
  eapply (linearized_update programs cm0 h dones abs ts tid p d);
    try done; try apply merged_same; try (unfold phase_ok; simpl; done).
  eapply (coupled_update_thread ts cm abs tid _ _ (guard a) b0 a0); try done.
  unfold owner_rel. simpl. split; [done |]. by rewrite Hrel, subscript_lookup.
Qed.

(** Destroying the guard. *)
Lemma step_Stored a key f rest :
  ts !! tid = Some (mkThread (Stored a) ((key, f) :: rest)) →
  ∃ t' cm', stepped (mkThread (Stored a) ((key, f) :: rest)) t' cm'.
Proof using All.
  intros Ht. destruct (Hth _ _ _ _ Hp Hd Ht) as [Hrem _]. simpl in Hrem.
  destruct (coupled_held _ _ _ _ _ (guard a) Hc Ht eq_refl)
    as (b0 & a0 & Hb0 & Ha0 & Hmb & Hrel).
  unfold owner_rel in Hrel. simpl in Hrel.
  unfold stepped, thread_step, Access_dtor. simpl.
  rewrite (with_bucket_at _ _ _ _ Hb0). unfold unlock. rewrite Hmb. simpl.
  eexists _, _. split; [done |]. split; [| unfold steps_left; simpl; lia].
  eapply (linearized_update programs cm0 h dones abs ts tid p d);
    try done; try apply merged_same; try (unfold phase_ok; simpl; done).
  eapply coupled_update_shared; try done; [by left | right].
  split; [done |]. pose proof (quiescent_free _ _ _ Hq Ha0) as Hfree.
  destruct a0 as [mu m]. simpl in *. by subst.
Qed.

(** Writing the new value through the reference: the statement takes
    effect. *)
Lemma step_Loaded a v key f rest :
  ts !! tid = Some (mkThread (Loaded a v) ((key, f) :: rest)) →
  ∃ t' cm', stepped (mkThread (Loaded a v) ((key, f) :: rest)) t' cm'.
Proof using All.
  intros Ht. destruct (Hth _ _ _ _ Hp Hd Ht) as [Hrem Hok].
  simpl in Hrem. unfold phase_ok in Hok. simpl in Hok. destruct Hok as [Hi Hr].
  destruct (coupled_held _ _ _ _ _ (guard a) Hc Ht eq_refl)
    as (b0 & a0 & Hb0 & Ha0 & Hmb & Hrel).
  unfold owner_rel in Hrel. simpl in Hrel. destruct Hrel as [Hrel Hv].
  assert (v = default value_init (map a0 !! key)) as Hv'.
  { rewrite Hrel, subscript_lookup in Hv. congruence. }
  destruct (Hsafe (<[tid := d ++ [(key, f)]]> dones) (h ++ [(key, f)]))
    as [abs' Habs'].
  { by apply merged_snoc. }
  { by rewrite length_insert. }
  { intros tid' p' d' Hp' Hd'. destruct (decide (tid' = tid)) as [-> | Hne].
    - rewrite list_lookup_insert_eq in Hd' by (by eapply lookup_lt_Some).
      injection Hd' as <-. replace p' with p by congruence.
      exists rest. by rewrite <- app_assoc.
    - rewrite list_lookup_insert_ne in Hd' by done.
      destruct (lookup_lt_is_Some_2 ts tid') as [t' Ht'].
      { apply lookup_lt_Some in Hp'. lia. }
      destruct (Hth _ _ _ _ Hp' Hd' Ht') as [-> _]. by eexists. }
  pose proof Habs' as Hstep.
  rewrite fmap_app, run_calls_app, Hrun in Hstep. simpl in Hstep.
  apply bind_Returns in Hstep as (abs1 & Hstep & [= ->]).
  rewrite (update_through_at _ _ _ _ _ Hi Ha0), (quiescent_free _ _ _ Hq Ha0)
    in Hstep.
  apply bind_Returns in Hstep as (w & Hw & [= <-]).
  unfold stepped, thread_step. simpl. rewrite Hv', Hw. simpl.
  unfold assign. rewrite Hr. simpl.
  rewrite (with_bucket_at _ _ _ _ Hb0). rewrite Hv. simpl.
  eexists _, _. split; [done |]. split; [| unfold steps_left; simpl; lia].
  eapply (linearized_update programs cm0 h dones abs ts tid p d
            _ (h ++ [(key, f)]) (d ++ [(key, f)])); try done.
  - by apply merged_snoc.
  - apply (quiescent_replace abs key (guard a) a0); try done.
    intros k Hne. by rewrite lookup_insert_ne.
  - simpl. apply length_insert.
  - eapply coupled_update; try done; [by left | left].
    split; [done |]. split; [done |]. unfold owner_rel. simpl.
    by rewrite Hrel, insert_subscript.
  - simpl. by rewrite <- app_assoc.
  - unfold phase_ok. simpl. split; [| done].
    erewrite GetBucket_same_length; [done |]. simpl. apply length_insert.
Qed.

End OneStep.

(** ** Several threads: schedules *)

Section Schedules.
Context {Value : Type} `{!DefaultConstructible Value}.
Implicit Types (cm abs : ConcurrentMap Value) (b : Bucket Value).
Implicit Types (t : thread Value) (ts : list (thread Value)) (s : system Value).
Implicit Types (programs dones : list (list (Z * (Value → outcome Value)))).
Implicit Types (h p d : list (Z * (Value → outcome Value))).

Lemma sum_list_insert_lt (l : list nat) i x y :
  l !! i = Some x → (y < x)%nat → (sum_list (<[i := y]> l) < sum_list l)%nat.
Proof.
  revert i. induction l as [|z l IH]; intros [|i] Hl Hlt; simpl in *; try done.
  - injection Hl as ->. lia.
  - specialize (IH i Hl Hlt). lia.
Qed.

(** A thread inside its program waits for a mutex or makes a step that
    keeps the invariant. *)
Lemma thread_step_linearized programs cm0 s tid t :
  sequentially_safe programs cm0 →
  linearized programs cm0 s →
  threads s !! tid = Some t →
  todo t ≠ [] →
  (thread_step t (shared s) = Blocks ∧ pc t = Idle)
  ∨ ∃ t' cm',
      thread_step t (shared s) = Returns (t', cm')
      ∧ linearized programs cm0 (mkSystem cm' (<[tid := t']> (threads s)))
      ∧ (steps_left t' < steps_left t)%nat.
Proof.
  intros Hsafe (h & dones & abs & Hm & Hrun & Hq & Hc & Hld & Hlt & Hth) Ht Htodo.
  destruct s as [cm ts]. simpl in *.
  destruct (lookup_lt_is_Some_2 programs tid) as [p Hp].
  { apply lookup_lt_Some in Ht. lia. }
  destruct (lookup_lt_is_Some_2 dones tid) as [d Hd].
  { apply lookup_lt_Some in Ht. lia. }
  destruct t as [ph [|[key f] rest]]; [done |].
  destruct ph as [| i | a | a v | a].
  - destruct (step_Idle programs cm0 h dones abs cm ts tid p d
                Hsafe Hm Hrun Hq Hc Hld Hlt Hth Hp Hd key f rest Ht)
      as [? | ?]; [by left | by right].
  - right. by apply (step_Guarded programs cm0 h dones abs cm ts tid p d).
  - right. by apply (step_Bound programs cm0 h dones abs cm ts tid p d).
  - right. by apply (step_Loaded programs cm0 h dones abs cm ts tid p d).
  - right. by apply (step_Stored programs cm0 h dones abs cm ts tid p d).
Qed.

(** Whichever thread the scheduler picks, the system makes a defined step
    (possibly none) and the invariant holds afterwards. *)
Lemma system_step_linearized programs cm0 s tid :
  sequentially_safe programs cm0 →
  linearized programs cm0 s →
  ∃ s', system_step tid s = Returns s' ∧ linearized programs cm0 s'.
Proof.
  intros Hsafe Hlin. unfold system_step.
  destruct (threads s !! tid) as [t|] eqn:Ht; [| eauto].
  destruct (todo t) as [|st rest] eqn:Htodo.
  - unfold thread_step. rewrite Htodo. rewrite list_insert_id by done.
    destruct s. eauto.
  - destruct (thread_step_linearized programs cm0 s tid t Hsafe Hlin Ht)
      as [[-> _] | (t' & cm' & -> & Hlin' & _)]; [congruence | eauto | eauto].
Qed.

Lemma run_schedule_linearized programs cm0 schedule : ∀ s,
  sequentially_safe programs cm0 →
  linearized programs cm0 s →
  ∃ s', run_schedule schedule s = Returns s' ∧ linearized programs cm0 s'.
Proof.
  induction schedule as [|tid schedule IH]; intros s Hsafe Hlin; simpl.
  - eauto.
  - destruct (system_step_linearized programs cm0 s tid Hsafe Hlin)
      as (s1 & -> & Hlin1). simpl. by apply IH.
Qed.

Lemma unfinished_thread ts :
  Forall (λ t, todo t = []) ts ∨ ∃ tid t, ts !! tid = Some t ∧ todo t ≠ [].
Proof.
  induction ts as [|t ts IH]; [by left |].
  destruct (todo t) as [|st rest] eqn:Htodo.
  - destruct IH as [IH | (tid & t' & Ht' & Hne)].
    + left. by constructor.
    + right. by exists (S tid), t'.
  - right. exists 0%nat, t. split; [done | congruence].
Qed.

(** While some thread has statements left, some thread can make a step,
    and the step brings the system closer to the end: there is no
    deadlock. *)
Lemma system_progress programs cm0 s :
  sequentially_safe programs cm0 →
  linearized programs cm0 s →
  ¬ finished s →
  ∃ tid s', system_step tid s = Returns s'
    ∧ linearized programs cm0 s'
    ∧ (work_left s' < work_left s)%nat.
Proof.
  intros Hsafe Hlin Hnf.
  destruct (unfinished_thread (threads s)) as [? | (tid & t & Ht & Htodo)]; [done |].
  assert (Hmove : ∀ tid' t' t'' cm',
            threads s !! tid' = Some t' →
            thread_step t' (shared s) = Returns (t'', cm') →
            linearized programs cm0 (mkSystem cm' (<[tid' := t'']> (threads s))) →
            (steps_left t'' < steps_left t')%nat →
            ∃ tid s', system_step tid s = Returns s'
              ∧ linearized programs cm0 s' ∧ (work_left s' < work_left s)%nat).
  { intros tid' t' t'' cm' Ht' Hstep Hlin' Hlt.
    exists tid', (mkSystem cm' (<[tid' := t'']> (threads s))).
    unfold system_step. rewrite Ht', Hstep. split; [done |]. split; [done |].
    unfold work_left. simpl. rewrite list_fmap_insert.
    apply (sum_list_insert_lt _ _ (steps_left t')); [| done].
    by rewrite list_lookup_fmap, Ht'. }
  destruct (thread_step_linearized programs cm0 s tid t Hsafe Hlin Ht Htodo)
    as [[Hblocks Hidle] | (t' & cm' & Hstep & Hlin' & Hlt)]; [| by eapply Hmove].
  (* the thread waits: the holder of the mutex can move *)
  pose proof Hlin as (h & dones & abs & Hm & Hrun & Hq & Hc & Hld & Hlt & Hth).
  destruct t as [ph [|[key f] rest]]; [done |]. simpl in Hidle. subst ph.
  pose proof (coupled_length _ _ _ Hc) as Hlen.
  pose proof Hq as (Hn & _ & _).
  destruct (GetBucket_in_bounds abs key Hn) as (i & a0 & Hi & Hlti & Ha0).
  destruct (lookup_lt_is_Some_2 (buckets_ (shared s)) i) as [b0 Hb0]; [lia |].
  unfold thread_step, guard_ctor in Hblocks. simpl in Hblocks.
  rewrite (GetBucket_same_length abs _ key Hlen), Hi in Hblocks. simpl in Hblocks.
  rewrite (with_bucket_at _ _ _ _ Hb0) in Hblocks. unfold lock in Hblocks.
  destruct (mutex b0) eqn:Hmb; [| done].
  destruct (coupled_locked _ _ _ _ _ Hc Hq Hb0 Hmb) as (tid2 & t2 & Ht2 & Hh2).
  assert (Htodo2 : todo t2 ≠ []).
  { destruct (lookup_lt_is_Some_2 programs tid2) as [p2 Hp2].
    { apply lookup_lt_Some in Ht2. lia. }
    destruct (lookup_lt_is_Some_2 dones tid2) as [d2 Hd2].
    { apply lookup_lt_Some in Ht2. lia. }
    destruct (Hth _ _ _ _ Hp2 Hd2 Ht2) as [_ Hok].
    unfold phase_ok in Hok. unfold held_by in Hh2.
    destruct (pc t2), (todo t2); done. }
  destruct (thread_step_linearized programs cm0 s tid2 t2 Hsafe Hlin Ht2 Htodo2)
    as [[_ Hidle2] | (t' & cm' & Hstep & Hlin' & Hlt')]; [| by eapply Hmove].
  unfold held_by in Hh2. by rewrite Hidle2 in Hh2.
Qed.

(** Every system that satisfies the invariant can be scheduled to its
    end. *)
Lemma run_to_end programs cm0 (n : nat) : ∀ s,
  sequentially_safe programs cm0 →
  linearized programs cm0 s →
  (work_left s ≤ n)%nat →
  ∃ schedule s', run_schedule schedule s = Returns s'
    ∧ linearized programs cm0 s' ∧ finished s'.
Proof.
  induction n as [|n IH]; intros s Hsafe Hlin Hn.
  - destruct (unfinished_thread (threads s)) as [Hfin | (tid & t & Ht & Htodo)].
    + by exists [], s.
    + destruct (system_progress programs cm0 s Hsafe Hlin) as (? & ? & _ & _ & ?).
      * intros Hfin. unfold finished in Hfin. rewrite Forall_lookup in Hfin.
        by apply Htodo, (Hfin tid).
      * lia.
  - destruct (unfinished_thread (threads s)) as [Hfin | (tid & t & Ht & Htodo)].
    + by exists [], s.
    + destruct (system_progress programs cm0 s Hsafe Hlin)
        as (tid' & s1 & Hstep & Hlin1 & Hlt).
      * intros Hfin. unfold finished in Hfin. rewrite Forall_lookup in Hfin.
        by apply Htodo, (Hfin tid).
      * destruct (IH s1 Hsafe Hlin1) as (schedule & s' & Hrun & ? & ?); [lia |].
        exists (tid' :: schedule), s'. simpl. by rewrite Hstep.
Qed.

End Schedules.

(** ** Several threads: from the start to the end *)

Section Linearizability.
Context {Value : Type} `{!DefaultConstructible Value}.
Implicit Types (cm abs : ConcurrentMap Value) (b : Bucket Value).
Implicit Types (t : thread Value) (ts : list (thread Value)) (s : system Value).
Implicit Types (programs dones : list (list (Z * (Value → outcome Value)))).
Implicit Types (h p d : list (Z * (Value → outcome Value))).

Lemma linearized_spawn programs cm0 :
  quiescent cm0 → linearized programs cm0 (spawn cm0 programs).
Proof.
  intros Hq. exists [], (replicate (length programs) []), cm0. simpl.
  assert (Hidle : ∀ tid t, (mkThread Idle <$> programs) !! tid = Some t →
            pc t = Idle ∧ programs !! tid = Some (todo t)).
  { intros tid t Ht. rewrite list_lookup_fmap in Ht.
    destruct (programs !! tid); simpl in Ht; [| done]. by injection Ht as <-. }
  split; [constructor |]. split; [done |]. split; [done |].
  split; [| split; [| split]].
  - split; [done |]. split; [| split].
    + intros tid1 tid2 t1 t2 i Ht1 _ Hh. apply Hidle in Ht1 as [Hpc _].
      unfold held_by in Hh. by rewrite Hpc in Hh.
    + intros tid t i Ht Hh. apply Hidle in Ht as [Hpc _].
      unfold held_by in Hh. by rewrite Hpc in Hh.
    + done.
  - apply length_replicate.
  - apply length_fmap.
  - intros tid p d t Hp Hd Ht. apply Hidle in Ht as [Hpc Htodo].
    apply lookup_replicate in Hd as [-> _].
    unfold remaining, phase_ok. rewrite Hpc. split; [| done].
    simpl. congruence.
Qed.

(** At the end the shared map is what one thread gets when it runs all
    statements in the order of their effect. *)
Lemma linearized_finished programs cm0 s :
  linearized programs cm0 s → finished s →
  ∃ h, merged programs h
    ∧ run_calls (stmt_call <$> h) cm0 = Returns (shared s)
    ∧ quiescent (shared s).
Proof.
  intros (h & dones & abs & Hm & Hrun & Hq & Hc & Hld & Hlt & Hth) Hfin.
  unfold finished in Hfin. rewrite Forall_lookup in Hfin.
  assert (Hpc : ∀ tid t, threads s !! tid = Some t → pc t = Idle).
  { intros tid t Ht.
    destruct (lookup_lt_is_Some_2 programs tid) as [p Hp].
    { apply lookup_lt_Some in Ht. lia. }
    destruct (lookup_lt_is_Some_2 dones tid) as [d Hd].
    { apply lookup_lt_Some in Ht. lia. }
    destruct (Hth _ _ _ _ Hp Hd Ht) as [_ Hok].
    unfold phase_ok in Hok. rewrite (Hfin tid t Ht) in Hok.
    by destruct (pc t). }
  assert (shared s = abs) as ->.
  { apply (coupled_idle (threads s)); [done |].
    apply Forall_lookup. intros tid t Ht. unfold held_by.
    by rewrite (Hpc tid t Ht). }
  assert (dones = programs) as ->.
  { apply list_eq. intros tid.
    destruct (programs !! tid) as [p|] eqn:Hp.
    - destruct (lookup_lt_is_Some_2 dones tid) as [d Hd].
      { apply lookup_lt_Some in Hp. lia. }
      destruct (lookup_lt_is_Some_2 (threads s) tid) as [t Ht].
      { apply lookup_lt_Some in Hp. lia. }
      destruct (Hth _ _ _ _ Hp Hd Ht) as [Hrem _].
      unfold remaining in Hrem. rewrite (Hpc tid t Ht), (Hfin tid t Ht) in Hrem.
      rewrite app_nil_r in Hrem. congruence.
    - apply lookup_ge_None. apply lookup_ge_None in Hp. lia. }
  exists h. done.
Qed.

(** Threads whose statements are safe in every order on one thread run
    without undefined behaviour under every schedule, can always be
    scheduled to their end, and leave the map that one thread leaves when
    it runs the statements in some order that keeps the order of each
    thread. *)
Lemma schedules_linearizable programs cm0 :
  quiescent cm0 →
  sequentially_safe programs cm0 →
  (∀ schedule, ∃ s,
     run_schedule schedule (spawn cm0 programs) = Returns s
     ∧ (finished s →
        ∃ h, merged programs h
          ∧ run_calls (stmt_call <$> h) cm0 = Returns (shared s)
          ∧ quiescent (shared s)))
  ∧ (∃ schedule s,
       run_schedule schedule (spawn cm0 programs) = Returns s ∧ finished s).
Proof.
  intros Hq Hsafe. pose proof (linearized_spawn programs cm0 Hq) as Hlin.
  split.
  - intros schedule.
    destruct (run_schedule_linearized programs cm0 schedule _ Hsafe Hlin)
      as (s & Hrun & Hlin').
    exists s. split; [done |]. by apply linearized_finished.
  - destruct (run_to_end programs cm0 _ _ Hsafe Hlin (le_n _))
      as (schedule & s & ? & _ & ?). eauto.
Qed.

End Linearizability.

(** ** Several threads: the partition and the number of buckets *)

Section SystemInvariants.
Context {Value : Type} `{!DefaultConstructible Value}.
Implicit Types (cm : ConcurrentMap Value) (b : Bucket Value).
Implicit Types (t : thread Value) (ts : list (thread Value)) (s : system Value).

(** A step on one bucket that adds at most keys of this bucket. *)
Lemma with_bucket_partitioned i g cm cm' :
  partitioned cm →
  (∀ b b' key, buckets_ cm !! i = Some b → g b = Returns b' →
     is_Some (map b' !! key) →
     is_Some (map b !! key) ∨ GetBucket cm key = Returns i) →
  with_bucket i g cm = Returns cm' →
  partitioned cm' ∧ length (buckets_ cm') = length (buckets_ cm).
Proof.
  intros Hp Hg H. pose proof (with_bucket_length _ _ _ _ H) as Hlen.
  split; [| done]. unfold with_bucket in H.
  destruct (buckets_ cm !! i) as [b|] eqn:Hb; [| done].
  apply bind_Returns in H as (b' & Hgb & [= <-]).
  intros j bj key Hj Hk. simpl in *.
  erewrite GetBucket_same_length by (simpl; apply length_insert).
  destruct (decide (j = i)) as [-> | Hne].
  - rewrite list_lookup_insert_eq in Hj by (by eapply lookup_lt_Some).
    injection Hj as <-.
    destruct (Hg b b' key eq_refl Hgb Hk) as [? | ?]; [by apply (Hp i b) | done].
  - rewrite list_lookup_insert_ne in Hj by done. by apply (Hp j bj).
Qed.

Lemma thread_step_partitioned t cm t' cm' :
  partitioned cm → phase_ok cm t →
  thread_step t cm = Returns (t', cm') →
  partitioned cm' ∧ phase_ok cm' t'
  ∧ length (buckets_ cm') = length (buckets_ cm).
Proof.
  intros Hp Hok H. unfold thread_step in H.
  destruct t as [ph [|[key f] rest]]; simpl in H.
  { by injection H as <- <-. }
  unfold phase_ok in Hok. simpl in Hok.
  destruct ph as [| i | a | a v | a].
  - apply bind_Returns in H as (i & Hi & H).
    apply bind_Returns in H as (cm1 & H1 & [= <- <-]).
    apply with_bucket_partitioned in H1 as [Hp1 Hlen]; [| done |].
    + split; [done |]. split; [| done]. unfold phase_ok. simpl.
      by rewrite (GetBucket_same_length cm cm1 key Hlen).
    + intros b b' k _ Hl Hk. unfold lock in Hl.
      destruct (mutex b); [done |]. injection Hl as <-. by left.
  - apply bind_Returns in H as (cm1 & H1 & [= <- <-]).
    apply with_bucket_partitioned in H1 as [Hp1 Hlen]; [| done |].
    + split; [done |]. split; [| done]. unfold phase_ok. simpl.
      by rewrite (GetBucket_same_length cm cm1 key Hlen).
    + intros b b' k _ [= <-] Hk. simpl in Hk. unfold subscript in Hk.
      destruct (map b !! key) eqn:E; [by left |].
      apply lookup_insert_is_Some in Hk as [<- | [_ ?]]; [by right | by left].
  - apply bind_Returns in H as (v & _ & [= <- <-]). done.
  - apply bind_Returns in H as (w & _ & H).
    apply bind_Returns in H as (cm1 & H1 & [= <- <-]).
    destruct Hok as [Hi Hr]. unfold assign in H1. rewrite Hr in H1. simpl in H1.
    apply with_bucket_partitioned in H1 as [Hp1 Hlen]; [| done |].
    + split; [done |]. split; [| done]. unfold phase_ok. simpl.
      by rewrite (GetBucket_same_length cm cm1 key Hlen).
    + intros b b' k _ Hb' Hk. destruct (map b !! key) eqn:E; [| done].
      injection Hb' as <-. simpl in Hk.
      apply lookup_insert_is_Some in Hk as [<- | [_ ?]]; [by right | by left].
  - apply bind_Returns in H as (cm1 & H1 & [= <- <-]).
    unfold Access_dtor in H1.
    apply with_bucket_partitioned in H1 as [Hp1 Hlen]; [| done |].
    + split; [done |]. split; [| done]. by unfold phase_ok.
    + intros b b' k _ Hu Hk. unfold unlock in Hu.
      destruct (mutex b); [| done]. injection Hu as <-. by left.
Qed.

Lemma system_step_partitioned tid s s' :
  system_partitioned s → system_step tid s = Returns s' →
  system_partitioned s'
  ∧ length (buckets_ (shared s')) = length (buckets_ (shared s)).
Proof.
  intros [Hp Hoks] H. unfold system_step in H.
  destruct (threads s !! tid) as [t|] eqn:Ht; [| by injection H as <-].
  destruct (thread_step t (shared s)) as [[t' cm']| | |] eqn:Hstep;
    [| done | by injection H as <- | done].
  injection H as <-. simpl.
  rewrite Forall_lookup in Hoks.
  destruct (thread_step_partitioned _ _ _ _ Hp (Hoks tid t Ht) Hstep)
    as (Hp' & Hok' & Hlen).
  split; [| done]. split; [done |]. simpl.
  apply Forall_insert; [| done].
  apply Forall_lookup. intros tid' t'' Ht''.
  eapply phase_ok_same_length; [done | by eapply Hoks].
Qed.

Lemma run_schedule_partitioned schedule : ∀ s s',
  system_partitioned s → run_schedule schedule s = Returns s' →
  system_partitioned s'
  ∧ length (buckets_ (shared s')) = length (buckets_ (shared s)).
Proof.
  induction schedule as [|tid schedule IH]; intros s s' Hs H; simpl in H.
  - by injection H as <-.
  - apply bind_Returns in H as (s1 & H1 & H2).
    destruct (system_step_partitioned _ _ _ Hs H1) as [Hs1 Hlen1].
    destruct (IH _ _ Hs1 H2) as [Hs' Hlen']. split; [done | congruence].
Qed.

Lemma spawn_partitioned cm programs :
  partitioned cm → system_partitioned (spawn cm programs).
Proof.
  intros Hp. split; [done |]. simpl. apply Forall_fmap, Forall_forall.
  intros p _. by unfold phase_ok.
Qed.

End SystemInvariants.

Section ClaimsInvariants.
Context {Value : Type} `{!DefaultConstructible Value}.
Implicit Types (cm : ConcurrentMap Value) (b : Bucket Value).
Implicit Types (s : system Value).

(** C6: the partition of the keys is an invariant. It holds for the map
    the constructor returns, every call keeps it, and so it holds in every
    state a client reaches with calls of [operator[]], [erase] and
    [BuildOrdinaryMap] and in every state threads reach step by step: bucket
    [i] holds only keys with static_cast<uint64_t>(key) mod N = i (which is
    unsignedWiden(key) mod N on the integral types), and no key is in two
    buckets. *)
Theorem partition_invariant (bucket_count : nat) cm0 :
  ConcurrentMap_ctor bucket_count = Returns cm0 →
  let holds cm :=
    partitioned cm
    ∧ (∀ i b key, buckets_ cm !! i = Some b → is_Some (map b !! key) →
         Z.of_nat i = static_cast_uint64 key mod Z.of_nat bucket_count
         ∧ (integral_key key →
            Z.of_nat i = unsignedWiden key mod Z.of_nat bucket_count))
    ∧ keys_disjoint cm in
  holds cm0
  ∧ (∀ cs cm, run_calls cs cm0 = Returns cm → holds cm)
  ∧ (∀ programs schedule s,
       run_schedule schedule (spawn cm0 programs) = Returns s → holds (shared s))
  ∧ (∀ c cm cm', quiescent cm → run_call c cm = Returns cm' → quiescent cm').
Proof.
  intros Hctor holds.
  assert (Hholds : ∀ cm, partitioned cm → length (buckets_ cm) = bucket_count →
            holds cm).
  { intros cm Hp Hlen. split; [done |]. split.
    - intros i b key Hb Hk.
      pose proof (partitioned_index cm i b key Hp Hb Hk) as Hi.
      rewrite Hlen in Hi. split; [done |]. intros Hint.
      by rewrite <- static_cast_uint64_unsignedWiden.
    - intros i j bi bj key. apply partitioned_disjoint. done. }
  assert (H0 : partitioned cm0 ∧ length (buckets_ cm0) = bucket_count).
  { by apply (reachable_partitioned bucket_count [] cm0 cm0). }
  split; [| split; [| split]].
  - destruct H0. by apply Hholds.
  - intros cs cm Hrun.
    destruct (reachable_partitioned bucket_count cs cm0 cm Hctor Hrun).
    by apply Hholds.
  - intros programs schedule s Hrun. destruct H0 as [Hp0 Hlen0].
    destruct (run_schedule_partitioned schedule _ s
                (spawn_partitioned cm0 programs Hp0) Hrun) as [[Hp _] Hlen].
    apply Hholds; [done |]. simpl in Hlen. congruence.
  - intros c cm cm' Hq Hrun. pose proof (run_call_refines c cm Hq) as H.
    destruct (spec_call c (contents cm)); [| congruence ..].
    destruct H as (cm2 & Hrun2 & Hq2 & _). congruence.
Qed.

(** C9: the number of buckets is the one given to the constructor and no
    call and no step of a thread changes it. *)
Theorem bucket_count_fixed (bucket_count : nat) cm0 :
  ConcurrentMap_ctor bucket_count = Returns cm0 →
  length (buckets_ cm0) = bucket_count
  ∧ (∀ c cm cm', run_call c cm = Returns cm' →
       length (buckets_ cm') = length (buckets_ cm))
  ∧ (∀ cs cm, run_calls cs cm0 = Returns cm →
       length (buckets_ cm) = bucket_count)
  ∧ (∀ programs schedule s,
       run_schedule schedule (spawn cm0 programs) = Returns s →
       length (buckets_ (shared s)) = bucket_count).
Proof.
  intros Hctor.
  assert (H0 : partitioned cm0 ∧ length (buckets_ cm0) = bucket_count).
  { by apply (reachable_partitioned bucket_count [] cm0 cm0). }
  destruct H0 as [Hp0 Hlen0].
  split; [done |]. split; [| split].
  - intros c cm cm'. apply run_call_length.
  - intros cs cm Hrun. apply run_calls_length in Hrun. congruence.
  - intros programs schedule s Hrun.
    destruct (run_schedule_partitioned schedule _ s
                (spawn_partitioned cm0 programs Hp0) Hrun) as [_ Hlen].
    simpl in Hlen. congruence.
Qed.

End ClaimsInvariants.

Lemma partition_invariant_witness :
  ∃ cm, run_calls [access 7 preinc; access (-2) preinc; erase_key 7; access 4 preinc]
          (mkConcurrentMap (replicate 3 (mkBucket false ∅))) = Returns cm
    ∧ partitioned cm ∧ keys_disjoint cm.
Proof.
  assert (∃ cm, run_calls
            [access 7 preinc; access (-2) preinc; erase_key 7; access 4 preinc]
            (mkConcurrentMap (replicate 3 (mkBucket false ∅))) = Returns cm)
    as [cm Hcm].
  { eexists. vm_compute. reflexivity. }
  exists cm. split; [exact Hcm |].
  destruct (partition_invariant 3 (mkConcurrentMap (replicate 3 (mkBucket false ∅))))
    as (_ & H & _).
  - reflexivity.
  - destruct (H _ _ Hcm) as (Hp & _ & Hd). split; [exact Hp | exact Hd].
Defined.

Lemma bucket_count_fixed_witness :
  ∃ cm, run_calls [access 7 preinc; snapshot; erase_key 7; access 4 preinc]
          (mkConcurrentMap (replicate 3 (mkBucket false ∅))) = Returns cm
    ∧ length (buckets_ cm) = 3%nat.
Proof.
  assert (∃ cm, run_calls
            [access 7 preinc; snapshot; erase_key 7; access 4 preinc]
            (mkConcurrentMap (replicate 3 (mkBucket false ∅))) = Returns cm)
    as [cm Hcm].
  { eexists. vm_compute. reflexivity. }
  exists cm. split; [exact Hcm |].
  destruct (bucket_count_fixed 3 (mkConcurrentMap (replicate 3 (mkBucket false ∅))))
    as (_ & _ & H & _).
  - reflexivity.
  - exact (H _ _ Hcm).
Defined.

(** ** Counting increments *)

Section Counting.
Context {A : Type}.
Implicit Types (p d h : list (Z * A)) (programs dones : list (list (Z * A))).

Lemma count_key_cons key st p :
  count_key key (st :: p) =
    if decide (st.1 = key) then S (count_key key p) else count_key key p.
Proof. unfold count_key. rewrite filter_cons. by case_decide. Qed.

Lemma count_key_app key p1 p2 :
  count_key key (p1 ++ p2) = (count_key key p1 + count_key key p2)%nat.
Proof. unfold count_key. by rewrite filter_app, length_app. Qed.

Lemma sum_list_insert (l : list nat) i x y :
  l !! i = Some x → (sum_list (<[i := y]> l) + x = sum_list l + y)%nat.
Proof.
  revert i. induction l as [|z l IH]; intros [|i] Hl; simpl in *; try done.
  - injection Hl as ->. lia.
  - specialize (IH i Hl). lia.
Qed.

Lemma occurrences_replicate_nil key n :
  occurrences key (replicate n ([] : list (Z * A))) = 0%nat.
Proof. unfold occurrences. induction n as [|n IH]; simpl; [done | exact IH]. Qed.

(** A history has the statements of its threads, as often. *)
Lemma merged_count_key key dones h :
  merged dones h → count_key key h = occurrences key dones.
Proof.
  induction 1 as [n | dones h tid l x Hm IH Hl].
  - by rewrite occurrences_replicate_nil.
  - rewrite count_key_app, IH. unfold occurrences.
    rewrite list_fmap_insert.
    pose proof (sum_list_insert (count_key key <$> dones) tid (count_key key l)
                  (count_key key (l ++ [x]))) as Hs.
    rewrite list_lookup_fmap, Hl in Hs. specialize (Hs eq_refl).
    rewrite count_key_app in Hs. rewrite count_key_app. lia.
Qed.

Lemma merged_Forall (P : Z * A → Prop) dones h :
  merged dones h → Forall (Forall P) dones → Forall P h.
Proof.
  induction 1 as [n | dones h tid l x Hm IH Hl]; intros HF; [constructor |].
  rewrite Forall_lookup in HF.
  pose proof (lookup_lt_Some _ _ _ Hl) as Htid.
  assert (Hlx : Forall P (l ++ [x])).
  { apply (HF tid). by apply list_lookup_insert_eq. }
  apply Forall_app in Hlx as [Hl' Hx]. apply Forall_app. split; [| done].
  apply IH. apply Forall_lookup. intros tid' l' Hl''.
  destruct (decide (tid' = tid)) as [-> | Hne].
  - by replace l' with l by congruence.
  - apply (HF tid'). by rewrite list_lookup_insert_ne.
Qed.

Lemma count_key_prefix key d p :
  d `prefix_of` p → (count_key key d ≤ count_key key p)%nat.
Proof. intros [rest ->]. rewrite count_key_app. lia. Qed.

Lemma occurrences_prefix key dones : ∀ programs,
  length dones = length programs →
  (∀ tid p d, programs !! tid = Some p → dones !! tid = Some d → d `prefix_of` p) →
  (occurrences key dones ≤ occurrences key programs)%nat.
Proof.
  unfold occurrences.
  induction dones as [|d dones IH]; intros [|p programs] Hlen Hpre;
    simpl in *; try done.
  apply Nat.add_le_mono.
  - apply count_key_prefix, (Hpre 0%nat p d eq_refl eq_refl).
  - apply IH; [lia |]. intros tid p' d' Hp' Hd'. by apply (Hpre (S tid)).
Qed.

Lemma Forall_prefixes (P : Z * A → Prop) dones : ∀ programs,
  length dones = length programs →
  (∀ tid p d, programs !! tid = Some p → dones !! tid = Some d → d `prefix_of` p) →
  Forall (Forall P) programs → Forall (Forall P) dones.
Proof.
  induction dones as [|d dones IH]; intros [|p programs] Hlen Hpre HF;
    simpl in *; try done.
  inversion_clear HF as [|? ? Hp Hps]. constructor.
  - destruct (Hpre 0%nat p d eq_refl eq_refl) as [rest ->].
    by apply Forall_app in Hp as [? _].
  - apply (IH programs); [lia | | done].
    intros tid p' d' Hp' Hd'. by apply (Hpre (S tid)).
Qed.

End Counting.

(** Increments on the map of the spec: every key ends with its value plus
    the number of its increments, while no value passes [INT_MAX]. *)
Lemma spec_calls_preinc (h : list (Z * (Z → outcome Z))) : ∀ m : gmap Z Z,
  Forall (λ st, st.2 = preinc) h →
  (∀ k, default 0 (m !! k) + Z.of_nat (count_key k h) ≤ INT_MAX) →
  ∃ m', spec_calls (stmt_call <$> h) m = Returns m'
    ∧ ∀ k, m' !! k =
        if decide (count_key k h = 0%nat) then m !! k
        else Some (default 0 (m !! k) + Z.of_nat (count_key k h)).
Proof.
  induction h as [|[k0 f0] h IH]; intros m HF Hb.
  - exists m. split; [done |]. intros k. by rewrite decide_True.
  - inversion_clear HF as [|? ? Hf0 Hh]. simpl in Hf0. subst f0.
    assert (Hlt : default 0 (m !! k0) < INT_MAX).
    { specialize (Hb k0). rewrite count_key_cons, decide_True in Hb by done. lia. }
    destruct (IH (<[k0 := default 0 (m !! k0) + 1]> m) Hh) as (m' & Hrun & Hm').
    { intros k. specialize (Hb k). rewrite count_key_cons in Hb.
      destruct (decide (k0 = k)) as [<- | Hne].
      - rewrite lookup_insert_eq. simpl in *. rewrite decide_True in Hb by done. lia.
      - rewrite lookup_insert_ne by done. simpl in Hb.
        rewrite decide_False in Hb by done. done. }
    exists m'. split.
    + simpl. unfold value_init, int_default, preinc.
      rewrite decide_True by done. simpl. exact Hrun.
    + intros k. rewrite Hm', count_key_cons. simpl.
      destruct (decide (k0 = k)) as [<- | Hne].
      * rewrite lookup_insert_eq. simpl.
        destruct (decide (S (count_key k0 h) = 0%nat)) as [? | _]; [lia |].
        destruct (decide (count_key k0 h = 0%nat)) as [Hc | _];
          [rewrite Hc |]; f_equal; lia.
      * by rewrite lookup_insert_ne.
Qed.

(** ** Threads that increment *)

Section Increments.
Implicit Types (cm : ConcurrentMap Z) (s : system Z).
Implicit Types (programs : list (list (Z * (Z → outcome Z)))).

Lemma increments_safe programs cm0 :
  quiescent cm0 → contents cm0 = ∅ →
  Forall (Forall (λ st, st.2 = preinc)) programs →
  (∀ key, Z.of_nat (occurrences key programs) ≤ INT_MAX) →
  sequentially_safe programs cm0.
Proof.
  intros Hq H0 Hinc Hmax dones h Hm Hlen Hpre.
  destruct (spec_calls_preinc h ∅) as (m' & Hspec & _).
  - apply (merged_Forall _ dones); [done |].
    by apply (Forall_prefixes _ dones programs).
  - intros k. rewrite lookup_empty. simpl.
    rewrite (merged_count_key k dones h Hm).
    pose proof (occurrences_prefix k dones programs Hlen Hpre).
    specialize (Hmax k). lia.
  - pose proof (run_calls_refines (stmt_call <$> h) cm0 Hq) as H.
    rewrite H0, Hspec in H. destruct H as (cm' & ? & _). eauto.
Qed.

Lemma increments_contents programs cm0 h cm :
  quiescent cm0 → contents cm0 = ∅ →
  Forall (Forall (λ st, st.2 = preinc)) programs →
  (∀ key, Z.of_nat (occurrences key programs) ≤ INT_MAX) →
  merged programs h →
  run_calls (stmt_call <$> h) cm0 = Returns cm →
  ∀ key, contents cm !! key =
    if decide (occurrences key programs = 0%nat) then None
    else Some (Z.of_nat (occurrences key programs)).
Proof.
  intros Hq H0 Hinc Hmax Hm Hrun key.
  destruct (spec_calls_preinc h ∅) as (m' & Hspec & Hm').
  - by apply (merged_Forall _ programs).
  - intros k. rewrite lookup_empty. simpl.
    rewrite (merged_count_key k programs h Hm). apply Hmax.
  - pose proof (run_calls_refines (stmt_call <$> h) cm0 Hq) as H.
    rewrite H0, Hspec in H. destruct H as (cm' & Hrun' & _ & <- & _).
    replace cm with cm' by congruence.
    rewrite Hm', lookup_empty, (merged_count_key key programs h Hm). simpl.
    by rewrite Z.add_0_l.
Qed.

(** Threads that only increment, on a map without entries: under every
    schedule every step is defined; the threads can be scheduled to their
    end; and at the end [BuildOrdinaryMap] returns, for every key, the
    number of the increments of this key. *)
Lemma increments_linearizable programs cm0 :
  quiescent cm0 → contents cm0 = ∅ →
  Forall (Forall (λ st, st.2 = preinc)) programs →
  (∀ key, Z.of_nat (occurrences key programs) ≤ INT_MAX) →
  (∀ schedule, ∃ s,
     run_schedule schedule (spawn cm0 programs) = Returns s
     ∧ (finished s →
        ∃ result, BuildOrdinaryMap (shared s) = Returns (result, shared s)
          ∧ ∀ key, result !! key =
              if decide (occurrences key programs = 0%nat) then None
              else Some (Z.of_nat (occurrences key programs))))
  ∧ (∃ schedule s,
       run_schedule schedule (spawn cm0 programs) = Returns s ∧ finished s).
Proof.
  intros Hq H0 Hinc Hmax.
  pose proof (increments_safe programs cm0 Hq H0 Hinc Hmax) as Hsafe.
  destruct (schedules_linearizable programs cm0 Hq Hsafe) as [Hall Hend].
  split; [| done]. intros schedule.
  destruct (Hall schedule) as (s & Hrun & Hfin). exists s. split; [done |].
  intros Hf. destruct (Hfin Hf) as (h & Hm & Hh & Hqs).
  exists (contents (shared s)). split; [by apply BuildOrdinaryMap_quiescent |].
  by apply (increments_contents programs cm0 h).
Qed.

Lemma increments_preinc keys : Forall (λ st, st.2 = preinc) (increments keys).
Proof. unfold increments. apply Forall_fmap, Forall_forall. done. Qed.

Lemma count_key_increments key keys :
  count_key key (increments keys) = length (filter (λ k, k = key) keys).
Proof.
  unfold increments. induction keys as [|k keys IH]; [done |].
  rewrite fmap_cons, count_key_cons, filter_cons. simpl.
  case_decide; simpl; by rewrite IH.
Qed.

Lemma count_NoDup (keys : list Z) key :
  NoDup keys →
  length (filter (λ k, k = key) keys) = if decide (key ∈ keys) then 1%nat else 0%nat.
Proof.
  induction 1 as [|k keys Hk Hnd IH]; [done |].
  rewrite filter_cons. destruct (decide (k = key)) as [-> | Hne]; simpl.
  - rewrite IH, decide_False by done. rewrite decide_True by left. done.
  - rewrite IH. destruct (decide (key ∈ keys)).
    + rewrite decide_True by (by right). done.
    + rewrite decide_False; [done |]. intros Hin.
      apply elem_of_cons in Hin as [? | ?]; congruence.
Qed.

Lemma NoDup_iota n first : NoDup (iota n first).
Proof.
  unfold iota. apply NoDup_fmap_2; [| apply NoDup_seq].
  intros i j Hij. lia.
Qed.

Lemma elem_of_iota n first key :
  key ∈ iota n first ↔ first ≤ key < first + Z.of_nat n.
Proof.
  unfold iota. rewrite list_elem_of_fmap. split.
  - intros (i & -> & Hi). apply elem_of_seq in Hi. lia.
  - intros Hk. exists (Z.to_nat (key - first)). split; [lia |].
    apply elem_of_seq. lia.
Qed.

End Increments.

(** ** The test of concurrent updates *)

Section TestProof.
Variable shuffle : nat → list Z → list Z.
Hypothesis shuffle_perm : ∀ seed l, shuffle seed l ≡ₚ l.

Let first_key (key_count : Z) : Z := Z.quot (- key_count) 2.

Lemma count_key_kernel key_count seed key :
  0 ≤ key_count →
  count_key key (kernel shuffle key_count seed) =
    if decide (first_key key_count ≤ key < first_key key_count + key_count)
    then 2%nat else 0%nat.
Proof using shuffle_perm.
  intros Hk. unfold kernel. rewrite count_key_increments, filter_app, length_app.
  rewrite (shuffle_perm seed), (count_NoDup _ key (NoDup_iota _ _)).
  pose proof (elem_of_iota (Z.to_nat key_count) (first_key key_count) key) as Hin.
  rewrite Z2Nat.id in Hin by done. fold (first_key key_count).
  destruct (decide (key ∈ iota (Z.to_nat key_count) (first_key key_count)))
    as [Hyes | Hno].
  - rewrite decide_True by (by apply Hin). done.
  - rewrite decide_False; [done |]. intros Hr. by apply Hno, Hin.
Qed.

Lemma occurrences_kernel key_count (seeds : list nat) key :
  0 ≤ key_count →
  occurrences key (kernel shuffle key_count <$> seeds) =
    if decide (first_key key_count ≤ key < first_key key_count + key_count)
    then (2 * length seeds)%nat else 0%nat.
Proof using shuffle_perm.
  intros Hk. unfold occurrences.
  induction seeds as [|seed seeds IH]; [by case_decide |].
  rewrite !fmap_cons. cbn [sum_list sum_list_with].
  fold (sum_list (count_key key <$> (kernel shuffle key_count <$> seeds))).
  rewrite IH, count_key_kernel by done. case_decide; simpl; lia.
Qed.

(** What [BuildOrdinaryMap] returns after the threads of
    [RunConcurrentUpdates]: [key_count] entries, each with twice the number
    of threads. *)
Lemma kernel_result key_count (thread_count : nat) (result : gmap Z Z) :
  0 ≤ key_count → (0 < thread_count)%nat →
  (∀ key, result !! key =
     if decide (occurrences key (kernel shuffle key_count <$> seq 0 thread_count)
                = 0%nat)
     then None
     else Some (Z.of_nat
                  (occurrences key (kernel shuffle key_count <$> seq 0 thread_count)))) →
  Z.of_nat (size result) = key_count
  ∧ ∀ key v, result !! key = Some v → v = 2 * Z.of_nat thread_count.
Proof using shuffle_perm.
  intros Hk Ht Hres.
  assert (Hlook : ∀ key, result !! key =
            if decide (first_key key_count ≤ key < first_key key_count + key_count)
            then Some (2 * Z.of_nat thread_count) else None).
  { intros key. rewrite Hres, occurrences_kernel, length_seq by done.
    destruct (decide (first_key key_count ≤ key < first_key key_count + key_count)).
    - rewrite decide_False by lia. f_equal. lia.
    - by rewrite decide_True. }
  split.
  - set (l := (λ k, (k, 2 * Z.of_nat thread_count))
                <$> iota (Z.to_nat key_count) (first_key key_count)).
    assert (Hfst : l.*1 = iota (Z.to_nat key_count) (first_key key_count)).
    { unfold l. rewrite <- list_fmap_compose. apply list_fmap_id. }
    assert (result = list_to_map l) as ->.
    { apply map_eq. intros key. rewrite Hlook.
      pose proof (elem_of_iota (Z.to_nat key_count) (first_key key_count) key) as Hin.
      rewrite Z2Nat.id in Hin by done.
      case_decide as Hr; symmetry.
      - apply elem_of_list_to_map; [rewrite Hfst; apply NoDup_iota |].
        unfold l. apply list_elem_of_fmap. exists key. split; [done | by apply Hin].
      - apply not_elem_of_list_to_map. rewrite Hfst. intros Hyes. by apply Hr, Hin. }
    rewrite map_size_list_to_map by (rewrite Hfst; apply NoDup_iota).
    unfold l, iota. rewrite !length_fmap, length_seq. lia.
  - intros key v Hv. rewrite Hlook in Hv. case_decide; congruence.
Qed.

Lemma asserts_hold (l : list (Z * Z)) :
  (∀ kv, kv ∈ l → kv.2 = 6) →
  foldr (λ kv rest, _ ← AssertEqual kv.2 6; rest) (Returns ()) l = Returns ().
Proof.
  induction l as [|kv l IH]; intros Hl; [done |].
  cbn [foldr]. rewrite IH by (intros kv' Hin; apply Hl; by right).
  unfold AssertEqual. by rewrite decide_True by (apply Hl; left).
Qed.

Lemma TestConcurrentUpdate_asserts_hold (result : gmap Z Z) :
  Z.of_nat (size result) = KEY_COUNT →
  (∀ key v, result !! key = Some v → v = 6) →
  TestConcurrentUpdate_asserts result = Returns ().
Proof.
  intros Hsize Hvals. unfold TestConcurrentUpdate_asserts.
  rewrite asserts_hold.
  - unfold AssertEqual. by rewrite decide_True.
  - intros [key v] Hin. apply elem_of_entries in Hin. by apply (Hvals key).
Qed.

Lemma TestConcurrentUpdate_eq schedule :
  TestConcurrentUpdate shuffle schedule =
    run_schedule schedule
      (RunConcurrentUpdates shuffle
         (mkConcurrentMap (replicate THREAD_COUNT (mkBucket false ∅)))
         THREAD_COUNT KEY_COUNT)
    ≫= λ s, BuildOrdinaryMap (shared s)
    ≫= λ '(result, _), TestConcurrentUpdate_asserts result.
Proof. reflexivity. Qed.

End TestProof.

Lemma occurrences_le_length {A : Type} key (programs : list (list (Z * A))) :
  (occurrences key programs ≤ sum_list (length <$> programs))%nat.
Proof.
  unfold occurrences. induction programs as [|p programs IH]; [done |].
  rewrite !fmap_cons. cbn [sum_list sum_list_with].
  apply Nat.add_le_mono; [| exact IH].
  unfold count_key. apply length_filter.
Qed.

(** C8: no increment is lost. The mutex of a bucket serializes the
    statements on its keys: what threads leave in the map is what one thread
    leaves that runs their statements in some order. Threads that run
    statements [++cm[key].ref_to_value] on a map built with N > 0 buckets
    make only defined steps under every schedule and can always be scheduled
    to their end; when all have ended, [BuildOrdinaryMap] returns for every
    key the number of increments of this key (as long as this number is an
    [int]). For [TestConcurrentUpdate], whatever the shuffles and the
    schedule: the result has 50000 entries, every value is 6, and the
    assertions hold. *)
Theorem concurrent_increments_not_lost :
  (∀ (Value : Type) (Hdefault : DefaultConstructible Value)
     (programs : list (list (Z * (Value → outcome Value)))) cm0,
     quiescent cm0 →
     sequentially_safe programs cm0 →
     ∀ schedule, ∃ s,
       run_schedule schedule (spawn cm0 programs) = Returns s
       ∧ (finished s →
          ∃ h, merged programs h
            ∧ run_calls (stmt_call <$> h) cm0 = Returns (shared s)))
  ∧ (∀ (bucket_count : nat) (keys : list (list Z)) cm0,
     (0 < bucket_count)%nat →
     ConcurrentMap_ctor bucket_count = Returns cm0 →
     (∀ key, Z.of_nat (occurrences key (increments <$> keys)) ≤ INT_MAX) →
     (∀ schedule, ∃ s,
        run_schedule schedule (spawn cm0 (increments <$> keys)) = Returns s
        ∧ (finished s →
           ∃ result, BuildOrdinaryMap (shared s) = Returns (result, shared s)
             ∧ ∀ key, result !! key =
                 if decide (occurrences key (increments <$> keys) = 0%nat)
                 then None
                 else Some (Z.of_nat (occurrences key (increments <$> keys)))))
     ∧ (∃ schedule s,
          run_schedule schedule (spawn cm0 (increments <$> keys)) = Returns s
          ∧ finished s))
  ∧ (∀ (shuffle : nat → list Z → list Z) cm0,
       (∀ seed l, shuffle seed l ≡ₚ l) →
       ConcurrentMap_ctor THREAD_COUNT = Returns cm0 →
       (∀ schedule, ∃ s,
          run_schedule schedule
            (RunConcurrentUpdates shuffle cm0 THREAD_COUNT KEY_COUNT) = Returns s
          ∧ (finished s →
             TestConcurrentUpdate shuffle schedule = Returns ()
             ∧ ∃ result, BuildOrdinaryMap (shared s) = Returns (result, shared s)
                 ∧ Z.of_nat (size result) = 50000
                 ∧ ∀ key v, result !! key = Some v → v = 6))
       ∧ (∃ schedule s,
            run_schedule schedule
              (RunConcurrentUpdates shuffle cm0 THREAD_COUNT KEY_COUNT) = Returns s
            ∧ finished s)).
Proof.
  split; [| split].
  - intros Value Hdefault programs cm0 Hq Hsafe schedule.
    destruct (schedules_linearizable programs cm0 Hq Hsafe) as [Hall _].
    destruct (Hall schedule) as (s & Hrun & Hfin). exists s. split; [done |].
    intros Hf. destruct (Hfin Hf) as (h & ? & ? & _). eauto.
  - intros bucket_count keys cm0 Hn [= <-] Hmax.
    apply increments_linearizable; try done.
    + by apply quiescent_ctor.
    + apply contents_ctor.
    + apply Forall_fmap, Forall_forall. intros ks _. apply increments_preinc.
  - intros shuffle cm0 Hperm [= <-].
    assert (Hk : 0 ≤ KEY_COUNT) by (unfold KEY_COUNT; lia).
    destruct (increments_linearizable
                (kernel shuffle KEY_COUNT <$> seq 0 THREAD_COUNT)
                (mkConcurrentMap (replicate THREAD_COUNT (mkBucket false ∅))))
      as [Hall Hend].
    + apply quiescent_ctor. unfold THREAD_COUNT. lia.
    + apply contents_ctor.
    + apply Forall_fmap, Forall_forall. intros seed _. apply increments_preinc.
    + intros key. rewrite (occurrences_kernel shuffle Hperm) by done.
      rewrite length_seq. unfold THREAD_COUNT, INT_MAX. case_decide; simpl; lia.
    + split; [| exact Hend]. intros schedule.
      destruct (Hall schedule) as (s & Hrun & Hfin). exists s.
      split; [exact Hrun |]. intros Hf.
      destruct (Hfin Hf) as (result & Hbuild & Hres).
      destruct (kernel_result shuffle Hperm KEY_COUNT THREAD_COUNT result)
        as [Hsize Hvals]; [done | unfold THREAD_COUNT; lia | done |].
      assert (Hvals6 : ∀ key v, result !! key = Some v → v = 6).
      { intros key v Hv. rewrite (Hvals key v Hv). reflexivity. }
      split.
      * rewrite TestConcurrentUpdate_eq. unfold RunConcurrentUpdates.
        rewrite Hrun. cbn [mbind outcome_bind]. rewrite Hbuild.
        cbn [mbind outcome_bind].
        by apply TestConcurrentUpdate_asserts_hold.
      * exists result. split; [done |]. split; [exact Hsize | done].
Qed.

Lemma concurrent_increments_not_lost_witness :
  ∃ s result,
    run_schedule (mjoin (replicate 20 [0; 1]%nat))
      (spawn (mkConcurrentMap (replicate 2 (mkBucket false ∅)))
         (increments <$> [[1; 2; 1]; [1; 3]])) = Returns s
    ∧ finished s
    ∧ BuildOrdinaryMap (shared s) = Returns (result, shared s)
    ∧ result !! 1 = Some 3.
Proof.
  destruct concurrent_increments_not_lost as (_ & H & _).
  destruct (H 2%nat [[1; 2; 1]; [1; 3]]
              (mkConcurrentMap (replicate 2 (mkBucket false ∅))))
    as [Hall _].
  - lia.
  - reflexivity.
  - intros key.
    pose proof (occurrences_le_length key
                  (increments <$> [[1; 2; 1]; [1; 3]])) as Hle.
    change (sum_list (length <$> (increments <$> [[1; 2; 1]; [1; 3]])))
      with 5%nat in Hle.
    unfold INT_MAX. lia.
  - destruct (Hall (mjoin (replicate 20 [0; 1]%nat))) as (s & Hrun & Hfin).
    assert (Hf : finished s).
    { vm_compute in Hrun. injection Hrun as <-. repeat constructor. }
    destruct (Hfin Hf) as (result & Hbuild & Hres).
    exists s, result. split; [exact Hrun |]. split; [exact Hf |].
    split; [exact Hbuild |]. rewrite Hres. reflexivity.
Defined.

(** * Further properties *)

(** ** [RunConcurrentUpdates] for every number of buckets, threads and keys *)

Lemma RunConcurrentUpdates_contents (shuffle : nat → list Z → list Z)
    (bucket_count thread_count : nat) (key_count : Z) :
  (∀ seed l, shuffle seed l ≡ₚ l) →
  (0 < bucket_count)%nat → (0 < thread_count)%nat → 0 ≤ key_count →
  2 * Z.of_nat thread_count ≤ INT_MAX →
  let start :=
    RunConcurrentUpdates shuffle
      (mkConcurrentMap (replicate bucket_count (mkBucket false ∅)))
      thread_count key_count in
  (∀ schedule, ∃ s,
     run_schedule schedule start = Returns s
     ∧ (finished s →
        quiescent (shared s)
        ∧ Z.of_nat (size (contents (shared s))) = key_count
        ∧ ∀ key, contents (shared s) !! key =
            if decide (Z.quot (- key_count) 2 ≤ key
                       < Z.quot (- key_count) 2 + key_count)
            then Some (2 * Z.of_nat thread_count) else None))
  ∧ (∃ schedule s, run_schedule schedule start = Returns s ∧ finished s).
Proof.
  intros Hperm Hb Ht Hk Hmax start.
  set (programs := kernel shuffle key_count <$> seq 0 thread_count).
  set (cm0 := mkConcurrentMap (replicate bucket_count
                                 (mkBucket false (∅ : gmap Z Z)))).
  assert (Hq : quiescent cm0) by (by apply quiescent_ctor).
  assert (H0 : contents cm0 = ∅) by apply contents_ctor.
  assert (Hinc : Forall (Forall (λ st, st.2 = preinc)) programs).
  { apply Forall_fmap, Forall_forall. intros seed _. apply increments_preinc. }
  assert (Hocc : ∀ key, Z.of_nat (occurrences key programs) ≤ INT_MAX).
  { intros key. unfold programs.
    rewrite (occurrences_kernel shuffle Hperm) by done.
    rewrite length_seq. case_decide; simpl; lia. }
  pose proof (increments_safe programs cm0 Hq H0 Hinc Hocc) as Hsafe.
  destruct (schedules_linearizable programs cm0 Hq Hsafe) as [Hall Hend].
  split; [| exact Hend]. intros schedule.
  destruct (Hall schedule) as (s & Hrun & Hfin). exists s.
  split; [exact Hrun |]. intros Hf.
  destruct (Hfin Hf) as (h & Hm & Hh & Hqs). split; [done |].
  pose proof (increments_contents programs cm0 h (shared s) Hq H0 Hinc Hocc Hm Hh)
    as Hres.
  destruct (kernel_result shuffle Hperm key_count thread_count (contents (shared s)))
    as [Hsize _]; [done | done | done |].
  split; [done |].
  intros key. rewrite Hres. unfold programs.
  rewrite (occurrences_kernel shuffle Hperm) by done. rewrite length_seq.
  destruct (decide (Z.quot (- key_count) 2 ≤ key
                    < Z.quot (- key_count) 2 + key_count)).
  - rewrite decide_False by lia. f_equal. lia.
  - by rewrite decide_True.
Qed.

(** On a map built with any positive number of buckets, any positive number
    of threads of [RunConcurrentUpdates] make only defined steps under every
    schedule and can be scheduled to their end; then the map has one entry
    for each of the [key_count] keys from [-key_count / 2] on, with twice
    the number of threads as value, whatever the number of buckets. *)
Theorem RunConcurrentUpdates_result (shuffle : nat → list Z → list Z)
    (bucket_count thread_count : nat) (key_count : Z) cm0 :
  (∀ seed l, shuffle seed l ≡ₚ l) →
  (0 < bucket_count)%nat → (0 < thread_count)%nat → 0 ≤ key_count →
  2 * Z.of_nat thread_count ≤ INT_MAX →
  ConcurrentMap_ctor bucket_count = Returns cm0 →
  (∀ schedule, ∃ s,
     run_schedule schedule
       (RunConcurrentUpdates shuffle cm0 thread_count key_count) = Returns s
     ∧ (finished s →
        ∃ result, BuildOrdinaryMap (shared s) = Returns (result, shared s)
          ∧ Z.of_nat (size result) = key_count
          ∧ ∀ key, result !! key =
              if decide (Z.quot (- key_count) 2 ≤ key
                         < Z.quot (- key_count) 2 + key_count)
              then Some (2 * Z.of_nat thread_count) else None))
  ∧ (∃ schedule s,
       run_schedule schedule
         (RunConcurrentUpdates shuffle cm0 thread_count key_count) = Returns s
       ∧ finished s).
Proof.
  intros Hperm Hb Ht Hk Hmax [= <-].
  destruct (RunConcurrentUpdates_contents shuffle bucket_count thread_count
              key_count Hperm Hb Ht Hk Hmax) as [Hall Hend].
  split; [| exact Hend]. intros schedule.
  destruct (Hall schedule) as (s & Hrun & Hfin). exists s.
  split; [exact Hrun |]. intros Hf. destruct (Hfin Hf) as (Hq & Hsize & Hres).
  exists (contents (shared s)).
  split; [by apply BuildOrdinaryMap_quiescent | done].
Qed.

Lemma RunConcurrentUpdates_result_witness :
  ∃ s result,
    run_schedule (mjoin (replicate 60 [0; 1]%nat))
      (RunConcurrentUpdates (λ _ l, reverse l)
         (mkConcurrentMap (replicate 2 (mkBucket false ∅))) 2 3) = Returns s
    ∧ finished s
    ∧ BuildOrdinaryMap (shared s) = Returns (result, shared s)
    ∧ result !! (-1) = Some 4 ∧ result !! 2 = None.
Proof.
  destruct (RunConcurrentUpdates_result (λ _ l, reverse l) 2 2 3
              (mkConcurrentMap (replicate 2 (mkBucket false ∅))))
    as [Hall _].
  - intros seed l. apply reverse_Permutation.
  - lia.
  - lia.
  - lia.
  - unfold INT_MAX. lia.
  - reflexivity.
  - destruct (Hall (mjoin (replicate 60 [0; 1]%nat))) as (s & Hrun & Hfin).
    assert (Hf : finished s).
    { vm_compute in Hrun. injection Hrun as <-. repeat constructor. }
    destruct (Hfin Hf) as (result & Hbuild & _ & Hres).
    exists s, result. split; [exact Hrun |]. split; [exact Hf |].
    split; [exact Hbuild |]. rewrite !Hres. split; reflexivity.
Defined.

(** ** [TestSpeedup] *)

(** Both runs of [TestSpeedup] make only defined steps, whatever the
    schedules, and can be scheduled to their end. At the end the map with
    one bucket and the map with 100 buckets have the same entries: the
    50000 keys from -25000 on, each with the value 8. *)
Theorem TestSpeedup_same_entries (shuffle : nat → list Z → list Z) :
  (∀ seed l, shuffle seed l ≡ₚ l) →
  (∀ schedule1 schedule2, ∃ s1 s2,
     TestSpeedup shuffle schedule1 schedule2 = Returns (s1, s2)
     ∧ (finished s1 → finished s2 →
        contents (shared s1) = contents (shared s2)
        ∧ Z.of_nat (size (contents (shared s1))) = 50000
        ∧ ∀ key, contents (shared s1) !! key =
            if decide (-25000 ≤ key < 25000) then Some 8 else None))
  ∧ (∃ schedule1 schedule2 s1 s2,
       TestSpeedup shuffle schedule1 schedule2 = Returns (s1, s2)
       ∧ finished s1 ∧ finished s2).
Proof.
  intros Hperm.
  destruct (RunConcurrentUpdates_contents shuffle 1 4 50000 Hperm)
    as [Hall1 (sch1 & e1 & Hrun1 & Hf1)]; [lia | lia | lia | unfold INT_MAX; lia |].
  destruct (RunConcurrentUpdates_contents shuffle 100 4 50000 Hperm)
    as [Hall2 (sch2 & e2 & Hrun2 & Hf2)]; [lia | lia | lia | unfold INT_MAX; lia |].
  assert (Heq : ∀ schedule1 schedule2 s1 s2,
            run_schedule schedule1
              (RunConcurrentUpdates shuffle
                 (mkConcurrentMap (replicate 1 (mkBucket false ∅))) 4 50000)
              = Returns s1 →
            run_schedule schedule2
              (RunConcurrentUpdates shuffle
                 (mkConcurrentMap (replicate 100 (mkBucket false ∅))) 4 50000)
              = Returns s2 →
            TestSpeedup shuffle schedule1 schedule2 = Returns (s1, s2)).
  { intros schedule1 schedule2 s1 s2 H1 H2. unfold TestSpeedup, ConcurrentMap_ctor.
    cbn [mbind outcome_bind]. rewrite H1. cbn [mbind outcome_bind].
    rewrite H2. reflexivity. }
  split.
  - intros schedule1 schedule2.
    destruct (Hall1 schedule1) as (s1 & H1 & Hfin1).
    destruct (Hall2 schedule2) as (s2 & H2 & Hfin2).
    exists s1, s2. split; [by apply Heq |]. intros Hs1 Hs2.
    destruct (Hfin1 Hs1) as (_ & Hsize1 & Hres1).
    destruct (Hfin2 Hs2) as (_ & _ & Hres2).
    split; [| split; [exact Hsize1 |]].
    + apply map_eq. intros key. by rewrite Hres1, Hres2.
    + intros key. rewrite Hres1.
      change (Z.quot (Z.opp 50000) 2) with (-25000).
      destruct (decide (-25000 ≤ key < -25000 + 50000)).
      * by rewrite decide_True by lia.
      * by rewrite decide_False by lia.
  - exists sch1, sch2, e1, e2. split; [by apply Heq | done].
Qed.

Lemma TestSpeedup_same_entries_witness :
  ∃ s1 s2, TestSpeedup (λ _ l, reverse l) [] [0%nat; 3%nat] = Returns (s1, s2).
Proof.
  destruct (TestSpeedup_same_entries (λ _ l, reverse l)) as [Hall _].
  - intros seed l. apply reverse_Permutation.
  - destruct (Hall [] [0%nat; 3%nat]) as (s1 & s2 & H & _).
    exists s1, s2. exact H.
Defined.

(** ** The values that threads read *)

Section ReadsSerialized.
Context {Value : Type} `{!DefaultConstructible Value}.
Implicit Types (cm abs : ConcurrentMap Value) (b : Bucket Value).
Implicit Types (t : thread Value) (ts : list (thread Value)) (s : system Value).
Implicit Types (programs dones : list (list (Z * (Value → outcome Value)))).
Implicit Types (h p d : list (Z * (Value → outcome Value))).

(** Statements whose mutations return for every value are safe in every
    order. *)
Lemma total_safe programs cm0 :
  quiescent cm0 →
  Forall (Forall (λ st, ∀ v, ∃ w, st.2 v = Returns w)) programs →
  sequentially_safe programs cm0.
Proof.
  intros Hq Htotal dones h Hm Hlen Hpre.
  assert (Hh : Forall (λ st : Z * (Value → outcome Value),
                         ∀ v, ∃ w, st.2 v = Returns w) h).
  { apply (merged_Forall _ dones); [done |].
    by apply (Forall_prefixes _ dones programs). }
  destruct (spec_calls_returns (stmt_call <$> h) (contents cm0)) as [m' Hspec].
  { apply Forall_fmap. eapply Forall_impl; [exact Hh |]. done. }
  pose proof (run_calls_refines (stmt_call <$> h) cm0 Hq) as H.
  rewrite Hspec in H. destruct H as (cm' & ? & _). eauto.
Qed.

(** The value a thread has read is the value of the key of its statement in
    the quiescent map of the invariant. *)
Lemma loaded_value programs cm0 s tid t a v :
  quiescent cm0 →
  linearized programs cm0 s →
  threads s !! tid = Some t →
  pc t = Loaded a v →
  serial_read programs cm0 tid v.
Proof.
  intros Hq0 (h & dones & abs & Hm & Hrun & Hq & Hc & Hld & Hlt & Hth) Ht Hpc.
  destruct (lookup_lt_is_Some_2 programs tid) as [p Hp].
  { apply lookup_lt_Some in Ht. lia. }
  destruct (lookup_lt_is_Some_2 dones tid) as [d Hd].
  { apply lookup_lt_Some in Ht. lia. }
  destruct (Hth _ _ _ _ Hp Hd Ht) as [Hrem Hok].
  unfold phase_ok in Hok. unfold remaining in Hrem. rewrite Hpc in Hok, Hrem.
  destruct (todo t) as [|[key f] rest] eqn:Htodo; [done |].
  destruct Hok as [Hi Hr].
  destruct (coupled_held _ _ _ tid t (guard a) Hc Ht) as (b & b_abs & Hb & Ha & _ & Hrel).
  { unfold held_by. by rewrite Hpc. }
  unfold owner_rel in Hrel. rewrite Hpc, Htodo in Hrel. destruct Hrel as [Hmap Hv].
  pose proof (run_calls_refines (stmt_call <$> h) cm0 Hq0) as Href.
  destruct (spec_calls (stmt_call <$> h) (contents cm0)) as [m| | |] eqn:Hspec;
    [| congruence ..].
  destruct Href as (abs' & Hrun' & _ & Hcont & _).
  replace abs' with abs in * by congruence.
  exists dones, h, m, p, key, f.
  split; [done |]. split; [done |]. split.
  { intros tid' p' d' Hp' Hd'.
    destruct (lookup_lt_is_Some_2 (threads s) tid') as [t' Ht'].
    { apply lookup_lt_Some in Hp'. lia. }
    destruct (Hth _ _ _ _ Hp' Hd' Ht') as [-> _]. by eexists. }
  split; [done |]. split.
  { rewrite Hrem. apply elem_of_app. right. left. }
  split; [done |].
  destruct Hq as (_ & _ & Hpart).
  rewrite <- Hcont, (contents_lookup abs key (guard a) b_abs) by done.
  rewrite Hmap, subscript_lookup in Hv. congruence.
Qed.

Lemma values_read_Forall (P : nat → Value → Prop) programs cm0 :
  sequentially_safe programs cm0 →
  (∀ s tid t a v, linearized programs cm0 s → threads s !! tid = Some t →
     pc t = Loaded a v → P tid v) →
  ∀ schedule s, linearized programs cm0 s →
    Forall (λ r, P r.1 r.2) (values_read schedule s).
Proof.
  intros Hsafe HP schedule.
  induction schedule as [|tid schedule IH]; intros s Hlin; simpl; [constructor |].
  destruct (system_step_linearized programs cm0 s tid Hsafe Hlin)
    as (s' & -> & Hlin').
  apply Forall_app. split; [| by apply IH].
  destruct (threads s !! tid) as [t|]; simpl; [| constructor].
  destruct (threads s' !! tid) as [t'|] eqn:Ht'; simpl; [| constructor].
  unfold value_read. destruct (pc t); try constructor.
  destruct (pc t') as [| | | a' v |] eqn:Hpc'; try constructor; [| constructor].
  simpl. by apply (HP s' tid t' a' v).
Qed.


End ReadsSerialized.


(** ** [TestReadAndWrite] *)

Section FilterCounts.
Context {A : Type} (P : A → Prop) `{∀ x, Decision (P x)}.

Lemma merged_filter_length (dones : list (list A)) h :
  merged dones h →
  length (filter P h) = sum_list ((λ d, length (filter P d)) <$> dones).
Proof.
  induction 1 as [n | dones h tid l x Hm IH Hl].
  - induction n as [|n IHn]; simpl; [done | exact IHn].
  - rewrite filter_app, length_app, IH, list_fmap_insert.
    pose proof (sum_list_insert ((λ d, length (filter P d)) <$> dones) tid
                  (length (filter P l)) (length (filter P (l ++ [x])))) as Hs.
    rewrite list_lookup_fmap, Hl in Hs. specialize (Hs eq_refl).
    rewrite filter_app, length_app in Hs.
    rewrite filter_app, length_app. lia.
Qed.

Lemma prefixes_filter_length (dones : list (list A)) : ∀ programs,
  length dones = length programs →
  (∀ tid p d, programs !! tid = Some p → dones !! tid = Some d → d `prefix_of` p) →
  (sum_list ((λ d, length (filter P d)) <$> dones)
   ≤ sum_list ((λ d, length (filter P d)) <$> programs))%nat.
Proof.
  induction dones as [|d dones IH]; intros [|p programs] Hlen Hpre;
    simpl in *; try done.
  apply Nat.add_le_mono.
  - destruct (Hpre 0%nat p d eq_refl eq_refl) as [rest ->].
    rewrite filter_app, length_app. lia.
  - apply IH; [lia |]. intros tid p' d' Hp' Hd'. by apply (Hpre (S tid)).
Qed.

Lemma filter_none (l : list A) : (∀ x, x ∈ l → ¬ P x) → filter P l = [].
Proof.
  induction l as [|x l IH]; intros Hl; [done |].
  rewrite filter_cons_False by (apply Hl; left).
  apply IH. intros y Hy. apply Hl. by right.
Qed.

End FilterCounts.

Section ReadAndWrite.
Implicit Types (h p : list (Z * (string → outcome string))).
Implicit Types (m : gmap Z string).

(** The statements of the test: an append of ['a'] or a read. *)
Let push_or_read (st : Z * (string → outcome string)) : Prop :=
  st.2 = push_back_a ∨ st.2 = Returns.

Let pushes (key : Z) (st : Z * (string → outcome string)) : Prop :=
  st.1 = key ∧ st.2 "" = Returns "a".

Lemma spec_calls_push_or_read h : ∀ m,
  Forall push_or_read h →
  ∃ m', spec_calls (stmt_call <$> h) m = Returns m'
    ∧ ∀ key, default "" (m' !! key) =
        Nat.iter (length (filter (pushes key) h)) (λ s, s +:+ "a")
          (default "" (m !! key)).
Proof.
  induction h as [|[k0 f0] h IH]; intros m HF.
  - exists m. done.
  - inversion_clear HF as [|? ? Hf0 Hh]. unfold push_or_read in Hf0. simpl in Hf0.
    destruct Hf0 as [-> | ->].
    + destruct (IH (<[k0 := default "" (m !! k0) +:+ "a"]> m) Hh) as (m' & Hrun & Hm').
      exists m'. split; [exact Hrun |]. intros key. rewrite Hm', filter_cons.
      destruct (decide (k0 = key)) as [<- | Hne].
      * rewrite decide_True by done. rewrite lookup_insert_eq. simpl.
        exact (Nat.iter_swap _ string (λ s : string, s +:+ "a") _).
      * rewrite decide_False by (intros [? _]; done).
        by rewrite lookup_insert_ne.
    + destruct (IH (<[k0 := default "" (m !! k0)]> m) Hh) as (m' & Hrun & Hm').
      exists m'. split; [exact Hrun |]. intros key. rewrite Hm', filter_cons.
      rewrite decide_False by (intros [_ ?]; done).
      destruct (decide (k0 = key)) as [<- | Hne].
      * by rewrite lookup_insert_eq.
      * by rewrite lookup_insert_ne.
Qed.

Lemma pushes_NoDup key p :
  NoDup p.*1 → (length (filter (pushes key) p) ≤ 1)%nat.
Proof.
  induction p as [|[k f] p IH]; intros Hnd; [simpl; lia |].
  rewrite fmap_cons in Hnd. apply NoDup_cons in Hnd as [Hk Hnd].
  rewrite filter_cons. destruct (decide (pushes key (k, f))) as [[Hkey _] | _].
  - simpl in *. subst k.
    assert (filter (pushes key) p = []) as ->; [| simpl; lia].
    apply filter_none. intros [k' f'] Hin [Hk' _]. simpl in Hk'.
    subst k'. apply Hk. apply list_elem_of_fmap. by exists (key, f').
  - by apply IH.
Qed.

Lemma fst_statements (g : string → outcome string) (keys : list Z) :
  ((λ i, (i, g)) <$> keys).*1 = keys.
Proof. induction keys as [|k keys IH]; [done |]. rewrite !fmap_cons, IH. done. Qed.

Lemma pushes_updater key : (length (filter (pushes key) updater) ≤ 1)%nat.
Proof.
  apply pushes_NoDup. unfold updater. rewrite fst_statements. apply NoDup_seqZ.
Qed.

Lemma pushes_reader key : length (filter (pushes key) reader) = 0%nat.
Proof.
  assert (filter (pushes key) reader = []) as ->; [| done].
  apply filter_none. intros st Hin [_ Hpush].
  unfold reader in Hin. apply list_elem_of_fmap in Hin as (i & -> & _).
  simpl in Hpush. done.
Qed.

Lemma updater_push_or_read : Forall push_or_read updater.
Proof. unfold updater. apply Forall_fmap, Forall_forall. intros i _. by left. Qed.

Lemma reader_push_or_read : Forall push_or_read reader.
Proof. unfold reader. apply Forall_fmap, Forall_forall. intros i _. by right. Qed.

Lemma ReadAndWrite_programs_Forall (Q : Z * (string → outcome string) → Prop) :
  Forall Q updater → Forall Q reader →
  Forall (Forall Q) [updater; reader; updater; reader].
Proof.
  intros Hu Hr.
  apply Forall_cons_2; [assumption |]. apply Forall_cons_2; [assumption |].
  apply Forall_cons_2; [assumption |]. apply Forall_cons_2; [assumption |].
  apply Forall_nil_2.
Qed.

Lemma ReadAndWrite_safe cm0 :
  quiescent cm0 → sequentially_safe [updater; reader; updater; reader] cm0.
Proof.
  intros Hq. apply total_safe; [done |].
  assert (Htotal : ∀ p, Forall push_or_read p →
            Forall (λ st : Z * (string → outcome string),
                      ∀ v, ∃ w, st.2 v = Returns w) p).
  { intros p Hp. eapply Forall_impl; [exact Hp |].
    intros st [-> | ->] v; eexists; reflexivity. }
  apply ReadAndWrite_programs_Forall; apply Htotal;
    [apply updater_push_or_read | apply reader_push_or_read].
Qed.

(** A value read in the test is the empty string with at most two ['a']. *)
Lemma ReadAndWrite_serial_read cm0 tid v :
  contents cm0 = ∅ →
  serial_read [updater; reader; updater; reader] cm0 tid v →
  empty_or_a_or_aa v = true.
Proof.
  intros H0 (dones & h & m & p & key & f & Hm & Hlen & Hpre & _ & _ & Hspec & ->).
  assert (Hh : Forall push_or_read h).
  { apply (merged_Forall _ dones); [done |].
    apply (Forall_prefixes _ dones [updater; reader; updater; reader]);
      [exact Hlen | exact Hpre |].
    apply ReadAndWrite_programs_Forall;
      [apply updater_push_or_read | apply reader_push_or_read]. }
  destruct (spec_calls_push_or_read h (contents cm0) Hh) as (m' & Hspec' & Hm').
  replace m with m' by congruence. change value_init with "". rewrite Hm'.
  rewrite H0, lookup_empty. simpl.
  assert (Hcount : (length (filter (pushes key) h) ≤ 2)%nat).
  { rewrite (merged_filter_length _ dones h Hm).
    etransitivity; [apply prefixes_filter_length; [exact Hlen | exact Hpre] |].
    pose proof (pushes_updater key) as Hu. pose proof (pushes_reader key) as Hr.
    change (sum_list ((λ d, length (filter (pushes key) d))
                        <$> [updater; reader; updater; reader]))
      with (length (filter (pushes key) updater)
            + (length (filter (pushes key) reader)
               + (length (filter (pushes key) updater)
                  + (length (filter (pushes key) reader) + 0))))%nat.
    lia. }
  destruct (length (filter (pushes key) h)) as [|[|[|n]]]; [done | done | done | lia].
Qed.

End ReadAndWrite.

Lemma reader_result_ok tid (log : list (nat * string)) :
  Forall (λ r, empty_or_a_or_aa r.2 = true) log →
  forallb empty_or_a_or_aa (reader_result tid log) = true.
Proof.
  intros Hlog. unfold reader_result. rewrite forallb_app.
  apply andb_true_intro. split.
  - induction Hlog as [|r log Hr Hlog IH]; [done |].
    rewrite filter_cons. case_decide; [| exact IH].
    rewrite fmap_cons. simpl. rewrite Hr. exact IH.
  - generalize (Z.to_nat 50000 - length (filter (λ r, r.1 = tid) log).*2)%nat.
    intros n. induction n as [|n IH]; [done | exact IH].
Qed.

Lemma TestReadAndWrite_eq schedule :
  TestReadAndWrite schedule =
    run_schedule schedule
      (spawn (mkConcurrentMap (replicate 5 (mkBucket false ∅)))
         [updater; reader; updater; reader])
    ≫= λ _,
      AssertEqual
        (forallb empty_or_a_or_aa
           (reader_result 1
              (values_read schedule
                 (spawn (mkConcurrentMap (replicate 5 (mkBucket false ∅)))
                    [updater; reader; updater; reader])))) true
      ≫= λ _,
        AssertEqual
          (forallb empty_or_a_or_aa
             (reader_result 3
                (values_read schedule
                   (spawn (mkConcurrentMap (replicate 5 (mkBucket false ∅)))
                      [updater; reader; updater; reader])))) true.
Proof. reflexivity. Qed.

(** [TestReadAndWrite] passes under every schedule: every step of the two
    updaters and the two readers is defined, every value a thread reads is
    the empty string, ["a"] or ["aa"], so both assertions hold; and the
    threads can be scheduled to their end. *)
Theorem TestReadAndWrite_passes :
  (∀ schedule, TestReadAndWrite schedule = Returns ())
  ∧ (∀ schedule,
       Forall (λ r, r.2 = "" ∨ r.2 = "a" ∨ r.2 = "aa")
         (values_read schedule
            (spawn (mkConcurrentMap (replicate 5 (mkBucket false ∅)))
               [updater; reader; updater; reader])))
  ∧ (∃ schedule s,
       run_schedule schedule
         (spawn (mkConcurrentMap (replicate 5 (mkBucket false ∅)))
            [updater; reader; updater; reader]) = Returns s
       ∧ finished s).
Proof.
  set (cm0 := mkConcurrentMap (replicate 5 (mkBucket false (∅ : gmap Z string)))).
  assert (Hq : quiescent cm0) by (apply quiescent_ctor; lia).
  assert (H0 : contents cm0 = ∅) by apply contents_ctor.
  pose proof (ReadAndWrite_safe cm0 Hq) as Hsafe.
  pose proof (linearized_spawn [updater; reader; updater; reader] cm0 Hq) as Hlin.
  assert (Hreads : ∀ schedule,
            Forall (λ r, empty_or_a_or_aa r.2 = true)
              (values_read schedule
                 (spawn cm0 [updater; reader; updater; reader]))).
  { intros schedule.
    apply (values_read_Forall (λ _ v, empty_or_a_or_aa v = true)
             [updater; reader; updater; reader] cm0 Hsafe); [| done].
    intros s tid t a v Hs Ht Hpc.
    apply (ReadAndWrite_serial_read cm0 tid v H0).
    by apply (loaded_value _ cm0 s tid t a v). }
  split; [| split].
  - intros schedule. rewrite TestReadAndWrite_eq. fold cm0.
    destruct (run_schedule_linearized _ cm0 schedule _ Hsafe Hlin) as (s & -> & _).
    cbn [mbind outcome_bind].
    rewrite !reader_result_ok by apply Hreads. reflexivity.
  - intros schedule. eapply Forall_impl; [apply Hreads |].
    intros [tid v] Hv. simpl in *. unfold empty_or_a_or_aa in Hv.
    repeat case_bool_decide; auto. done.
  - destruct (schedules_linearizable _ cm0 Hq Hsafe) as [_ Hend]. exact Hend.
Qed.

(** ** Mutual exclusion and waiting *)

Section Exclusion.
Context {Value : Type} `{!DefaultConstructible Value}.
Implicit Types (cm abs : ConcurrentMap Value) (b : Bucket Value).
Implicit Types (t : thread Value) (ts : list (thread Value)) (s : system Value).
Implicit Types (programs : list (list (Z * (Value → outcome Value)))).




Lemma subscript_op_Returns cm key a cm' :
  subscript_op cm key = Returns (a, cm') →
  ∃ i b, GetBucket cm key = Returns i
    ∧ buckets_ cm !! i = Some b ∧ mutex b = false
    ∧ a = mkAccess i (i, key)
    ∧ cm' = mkConcurrentMap (<[i := mkBucket true (subscript key (map b))]> (buckets_ cm)).
Proof.
  intros H. destruct (decide (length (buckets_ cm) = 0)%nat) as [Hz | Hnz].
  { unfold subscript_op in H. by rewrite GetBucket_empty in H. }
  destruct (GetBucket_in_bounds cm key) as (i & b & Hi & _ & Hb); [lia |].
  rewrite (subscript_op_at _ _ _ _ Hi Hb) in H.
  destruct (mutex b) eqn:Hm; [done |]. injection H as <- <-.
  by exists i, b.
Qed.

(** The handle that [operator[]] returns holds the mutex of its bucket
    until it is destroyed: meanwhile [operator[]] and [erase] for every key
    of this bucket wait, and so does [BuildOrdinaryMap]; its destructor
    leaves every mutex as it was before [operator[]] and changes no map. *)
Theorem handle_holds_bucket cm key a cm' :
  subscript_op cm key = Returns (a, cm') →
  (∀ key2, GetBucket cm key2 = Returns (guard a) →
     subscript_op cm' key2 = Blocks ∧ erase key2 cm' = Blocks)
  ∧ BuildOrdinaryMap cm' = Blocks
  ∧ ∃ cm'', Access_dtor a cm' = Returns cm''
      ∧ mutex <$> buckets_ cm'' = mutex <$> buckets_ cm
      ∧ map <$> buckets_ cm'' = map <$> buckets_ cm'.
Proof.
  intros H. apply subscript_op_Returns in H as (i & b & Hi & Hb & Hm & -> & ->).
  pose proof (lookup_lt_Some _ _ _ Hb) as Hlt. simpl.
  set (cm' := mkConcurrentMap (<[i := mkBucket true (subscript key (map b))]> (buckets_ cm))).
  assert (Hb' : buckets_ cm' !! i = Some (mkBucket true (subscript key (map b)))).
  { simpl. by apply list_lookup_insert_eq. }
  assert (Hlen : length (buckets_ cm') = length (buckets_ cm)).
  { simpl. apply length_insert. }
  split; [| split].
  - intros key2 Hi2. rewrite <- (GetBucket_same_length cm cm' key2 Hlen) in Hi2.
    by rewrite (subscript_op_at _ _ _ _ Hi2 Hb'), (erase_at _ _ _ _ Hi2 Hb').
  - rewrite BuildOrdinaryMap_eq, decide_False; [done |].
    intros Hfree. unfold all_free in Hfree. rewrite Forall_lookup in Hfree.
    by specialize (Hfree i _ Hb').
  - unfold Access_dtor. simpl. rewrite (with_bucket_at _ _ _ _ Hb'). simpl.
    eexists. split; [done |]. simpl.
    rewrite list_insert_insert_eq, !list_fmap_insert. simpl. split; [| done].
    apply list_insert_id. by rewrite list_lookup_fmap, Hb, <- Hm.
Qed.

End Exclusion.



Lemma handle_holds_bucket_witness :
  ∃ a cm', subscript_op example_map 1 = Returns (a, cm')
    ∧ subscript_op cm' 4 = Blocks ∧ erase 4 cm' = Blocks
    ∧ BuildOrdinaryMap cm' = Blocks.
Proof.
  assert (∃ a cm', subscript_op example_map 1 = Returns (a, cm')) as (a & cm' & H).
  { eexists _, _. vm_compute. reflexivity. }
  exists a, cm'. split; [exact H |].
  destruct (handle_holds_bucket example_map 1 a cm' H) as (Hwait & Hbuild & _).
  destruct (Hwait 4) as [H1 H2].
  - vm_compute in H. injection H as <- _. reflexivity.
  - split; [exact H1 |]. split; [exact H2 | exact Hbuild].
Defined.
